(** * calculator: a shallow embedding of package [calculator] (main.go) and of
    the helpers of its test file, with the properties its specification states.

    Go's [float64] is IEEE 754 binary64.  It is embedded as Rocq's primitive
    [float], the same format, whose operations are specified against
    [SpecFloat] by the standard library ([FloatAxioms]).  As in [SpecFloat],
    all NaNs are one value: payloads are not observable. *)

From Stdlib Require Import ZArith Floats Uint63 Ascii String Lia.
From stdpp Require Import gmap strings.

Local Open Scope Z_scope.

(** ** main.go *)

(** [func Add(x, y float64) float64 { return x + y }] *)
Definition Add (x y : float) : float := (x + y)%float.

(** [func Verify(got, want float64) bool { return true }] *)
Definition Verify (got want : float) : bool := true.

(** [type NumberCruncher interface { Add(x, y float64) float64;
    Verify(got, want float64) bool }] *)
Class NumberCruncher (C : Type) := {
  nc_Add : C -> float -> float -> float;
  nc_Verify : C -> float -> float -> bool
}.

(** The package-level functions are the one implementation in main.go. *)
Variant calculator := Calculator.

#[export] Instance calculator_NumberCruncher : NumberCruncher calculator := {
  nc_Add _ := Add;
  nc_Verify _ := Verify
}.

(** Go's [==] on float64: the IEEE comparison (NaN differs from itself, the
    two zeros are equal). *)
Definition go_eq (x y : float) : bool := (x =? y)%float.

(** Go's [!=] on float64. *)
Definition go_ne (x y : float) : bool := negb (go_eq x y).

(** [math.IsNaN(f)] is [f != f]. *)
Definition IsNaN (f : float) : bool := go_ne f f.

(** ** Values of finite float64, for the sums that are exact *)

(** The largest finite float64, [math.MaxFloat64]. *)
Definition MaxFloat64 : float := 0x1.fffffffffffffp+1023%float.

(** The value of a finite float64 counted in units of [2^-1074], the smallest
    positive float64: every finite float64 is an integer number of them.
    Infinities and NaN have no value. *)
Definition SFscaled (a : spec_float) : option Z :=
  match a with
  | S754_zero _ => Some 0
  | S754_finite s m e => Some (cond_Zopp s (Z.pos m) * 2 ^ (e + 1074))
  | S754_infinity _ | S754_nan => None
  end.

Definition scaled (x : float) : option Z := SFscaled (Prim2SF x).

(** [exact_sum x y]: both operands are finite and [Add x y] is their real
    sum, neither rounded nor overflowed. *)
Definition exact_sum (x y : float) : bool :=
  match scaled x, scaled y, scaled (Add x y) with
  | Some a, Some b, Some c => c =? a + b
  | _, _, _ => false
  end.

(** The negative zero, the one zero whose sign a sum can inherit. *)
Definition SFis_neg_zero (a : spec_float) : bool :=
  match a with S754_zero true => true | _ => false end.

(** ** The test file: the runtime its helpers act on *)

Local Open Scope string_scope.

(** [*testing.T], as far as the helpers use it: whether the running test has
    been marked as failed.  The text of its log is not modelled. *)
Record T := { failed : bool }.

(** What the helpers read and write: the environment of the process and the
    running test. *)
Record World := { environ : gmap string string; test : T }.

(** How a call ends: it returns a value, or the goroutine of the test exits
    ([runtime.Goexit], which [t.FailNow] calls) and nothing after it runs. *)
Inductive flow (A : Type) : Type :=
  | Return (a : A)
  | Goexit.
Arguments Return {A} a.
Arguments Goexit {A}.

(** Go code with effects: a function of the world that ends in a [flow]. *)
Definition Go (A : Type) : Type := World -> flow A * World.

Definition ret {A} (a : A) : Go A := fun w => (Return a, w).

Definition bind {A B} (m : Go A) (k : A -> Go B) : Go B :=
  fun w => match m w with
           | (Return a, w') => k a w'
           | (Goexit, w') => (Goexit, w')
           end.

Notation "x <- m ;; k" := (bind m (fun x => k))
  (at level 100, m at next level, right associativity).
Notation "m ;;; k" := (bind m (fun _ => k))
  (at level 100, right associativity).

(** A call of a function without effects, such as [Add] and [Verify]. *)
Definition go_Add (x y : float) : Go float := ret (Add x y).
Definition go_Verify (got want : float) : Go bool := ret (Verify got want).

(** *** package os (Unix), as the helpers use it *)

(** The one error these calls report. *)
Variant Errno := EINVAL.

(** [syscall.Setenv] refuses an empty name and a name with ['='] or NUL. *)
Definition valid_key (key : string) : bool :=
  negb (String.eqb key "") &&
  forallb (fun c => negb (Ascii.eqb c "="%char) && negb (Ascii.eqb c Ascii.zero))
          (String.list_ascii_of_string key).

(** It refuses a value with NUL. *)
Definition valid_value (value : string) : bool :=
  forallb (fun c => negb (Ascii.eqb c Ascii.zero)) (String.list_ascii_of_string value).

(** [os.LookupEnv] on an environment: the value and whether the variable is
    set.  The empty name is never set. *)
Definition lookupEnv (env : gmap string string) (key : string) : string * bool :=
  if String.eqb key "" then ("", false)
  else match env !! key with
       | Some v => (v, true)
       | None => ("", false)
       end.

(** [os.Getenv(key)]: the value, the empty string when the variable is unset. *)
Definition os_Getenv (key : string) : Go string :=
  fun w => (Return (fst (lookupEnv (environ w) key)), w).

(** [os.Setenv(key, value)]: sets the variable, or returns an error and
    leaves the environment as it is. *)
Definition os_Setenv (key value : string) : Go (option Errno) :=
  fun w =>
    if valid_key key && valid_value value
    then (Return None, {| environ := <[key := value]> (environ w); test := test w |})
    else (Return (Some EINVAL), w).

(** The environments the process can have: every name and value in it is
    one [os.Setenv] accepts. *)
Definition env_wf (env : gmap string string) : Prop :=
  forall k v, env !! k = Some v -> valid_key k = true /\ valid_value v = true.

(** *** package testing, as the helpers use it *)

(** [t.FailNow()]: marks the test failed and stops its goroutine. *)
Definition t_FailNow : Go unit :=
  fun w => (Goexit, {| environ := environ w; test := {| failed := true |} |}).

(** [t.Fatal(args...)] and [t.Fatalf(format, args...)]: log, then [FailNow]. *)
Definition t_Fatal : Go unit := t_FailNow.

(** [t.Errorf]: marks the test failed and goes on. *)
Definition t_Errorf : Go unit :=
  fun w => (Return tt, {| environ := environ w; test := {| failed := true |} |}).

(** testify's [assert.Equal(t, expected, actual)] on two float64: reports
    through [t.Errorf] when they differ, and returns whether they are equal. *)
Definition assert_Equal (expected actual : float) : Go bool :=
  if go_eq expected actual then ret true else (t_Errorf ;;; ret false).

(** *** The tests and helpers *)

(** [func TestAddZeros(t *testing.T)] *)
Definition TestAddZeros : Go unit :=
  let expected := 0%float in
  actual <- go_Add 0 0 ;;
  if go_ne expected actual then t_Fatal else ret tt.

(** [func TestAddNegativeNumbers(t *testing.T)] *)
Definition TestAddNegativeNumbers : Go unit :=
  let expected := (-10)%float in
  actual <- go_Add (-5) (-5) ;;
  if go_ne expected actual then t_Fatal else ret tt.

(** [func testSetENV(key, value string) func()]: the errors of [os.Setenv]
    are dropped, in the helper and in the closure it returns. *)
Definition testSetENV (key value : string) : Go (Go unit) :=
  ogENV <- os_Getenv key ;;
  os_Setenv key value ;;;
  ret (os_Setenv key ogENV ;;; ret tt).

(** [testSetENV(key, value)()]: the helper, then at once the closure. *)
Definition set_then_reset (key value : string) : Go unit :=
  reset <- testSetENV key value ;; reset.

(** [func TestExampleHelperThree(t *testing.T)]: the deferred call is
    [testSetENV] itself, which runs when the body has returned; the closure
    it returns is dropped. *)
Definition TestExampleHelperThree : Go unit :=
  actual <- go_Add 0 0 ;;
  assert_Equal 0 actual ;;;
  testSetENV "foo" "bar" ;;;
  ret tt.

Section Parsing.

(** Go's [error] values and [strconv.ParseFloat(input, 64)], which returns a
    float64 and an error, [nil] (here [None]) when the input parses. *)
Context {error : Type}.
Variable ParseFloat : string -> float * option error.

(** [func testFloatParserReturnsError(input string) (float64, error)] *)
Definition testFloatParserReturnsError (input : string) : float * option error :=
  let '(out, err) := ParseFloat input in
  match err with
  | Some e => (out, Some e)
  | None => (out, None)
  end.

(** [func testFloatParserFails(t *testing.T, input string) float64] *)
Definition testFloatParserFails (input : string) : Go float :=
  let '(out, err) := ParseFloat input in
  (match err with
   | Some e => t_Fatal
   | None => ret tt
   end) ;;;
  ret out.

(** [func TestExampleHelper(t *testing.T)] *)
Definition TestExampleHelper : Go unit :=
  let '(expected, err) := testFloatParserReturnsError "10" in
  (match err with
   | Some e => t_FailNow
   | None => ret tt
   end) ;;;
  actual <- go_Add 5 5 ;;
  assert_Equal expected actual ;;;
  ret tt.

(** [func TestExampleHelperTwo(t *testing.T)] *)
Definition TestExampleHelperTwo : Go unit :=
  expected <- testFloatParserFails "10" ;;
  out <- go_Add 5 5 ;;
  assert_Equal expected out ;;;
  ret tt.

End Parsing.

(** *** A test double for [strconv.ParseFloat]

    The helpers are stated for any parser.  To run them, this double parses
    unsigned decimal integers of at most fifteen digits, which float64 holds
    exactly, and reports every other input as a syntax error with the value
    [0], as [strconv.ParseFloat] does on a syntax error. *)

Variant NumError := ErrSyntax.

Definition digit_of (c : Ascii.ascii) : option Z :=
  let n := Z.of_N (Ascii.N_of_ascii c) in
  if ((48 <=? n) && (n <=? 57))%Z then Some (n - 48) else None.

Fixpoint digits_value (acc : Z) (s : string) : option Z :=
  match s with
  | EmptyString => Some acc
  | String c rest =>
      match digit_of c with
      | Some d => digits_value (10 * acc + d) rest
      | None => None
      end
  end.

Definition stubParseFloat (input : string) : float * option NumError :=
  if ((0 <? Z.of_nat (String.length input)) && (Z.of_nat (String.length input) <=? 15))%Z
  then match digits_value 0 input with
       | Some n => (of_uint63 (Uint63.of_Z n), None)
       | None => (0%float, Some ErrSyntax)
       end
  else (0%float, Some ErrSyntax).

(** The world before a test runs: the given environment, no failure yet. *)
Definition fresh (env : gmap string string) : World :=
  {| environ := env; test := {| failed := false |} |}.

(** *** The table-driven test *)

(** A row of the table of TestAdd: [struct { name string; x, y, expected
    float64 }]. *)
Record testCase := {
  tc_name : string;
  tc_x : float;
  tc_y : float;
  tc_expected : float
}.

(** [t.Run(name, f)]: runs [f] as a subtest, with a [*testing.T] of its own
    that starts unfailed, and waits for it.  A failure of the subtest marks
    the parent failed as well; [FailNow] in the subtest stops the subtest
    only.  The result is whether the subtest passed.  Every subtest is taken
    as selected (no [-run] filter). *)
Definition t_Run (name : string) (f : Go unit) : Go bool :=
  fun w =>
    let '(_, w') := f {| environ := environ w; test := {| failed := false |} |} in
    (Return (negb (failed (test w'))),
     {| environ := environ w';
        test := {| failed := failed (test w) || failed (test w') |} |}).

(** The subtest of TestAdd on one row:
    [func(tt *testing.T) { actual := Add(tc.x, tc.y);
    assert.Equal(tt, tc.expected, actual) }]. *)
Definition TestAdd_case (tc : testCase) : Go unit :=
  actual <- go_Add (tc_x tc) (tc_y tc) ;;
  assert_Equal (tc_expected tc) actual ;;;
  ret tt.

(** [for _, tc := range testCases { t.Run(tc.name, ...) }] *)
Fixpoint TestAdd_range (cases : list testCase) : Go unit :=
  match cases with
  | [] => ret tt
  | tc :: rest => t_Run (tc_name tc) (TestAdd_case tc) ;;; TestAdd_range rest
  end.

(** The table of TestAdd. *)
Definition testCases : list testCase :=
  [ {| tc_name := "Zeros"; tc_x := 0; tc_y := 0; tc_expected := 0.0 |};
    {| tc_name := "Negative numbers"; tc_x := -5; tc_y := -5; tc_expected := -10.0 |} ].

(** [func TestAdd(t *testing.T)] *)
Definition TestAdd : Go unit := TestAdd_range testCases.

(** Whether a row disagrees with [Add], under the [==] that [assert.Equal]
    applies to two float64. *)
Definition row_fails (tc : testCase) : bool :=
  go_ne (tc_expected tc) (Add (tc_x tc) (tc_y tc)).

(** Go's conversion of an integer to float64, as it applies to the integer
    constants the tests pass to [Add]: the nearest float64, ties to even. *)
Definition float64_of_Z (n : Z) : float :=
  SF2Prim (binary_normalize prec emax n 0 false).

(** What a shift record remembers of the doubled mantissa [m2] after [j]
    bits have been shifted out: the bits kept, the last bit shifted out
    ([shr_r]) and whether anything is left below it ([shr_s]). *)
Definition shr_inv (m2 j : Z) (mrs : shr_record) : Prop :=
  0 <= shr_m mrs /\
  exists t, m2 = 2 ^ (j + 1) * shr_m mrs + 2 ^ j * Z.b2z (shr_r mrs) + t /\
            0 <= t < 2 ^ j /\ (shr_s mrs = true <-> 0 < t).

(** ** Facts on binary64 shared by the theorems below *)

Local Open Scope Z_scope.

Lemma Prim2SF_nan : Prim2SF nan = S754_nan.
Proof. reflexivity. Qed.

Lemma IsNaN_is_nan f : IsNaN f = is_nan f.
Proof. reflexivity. Qed.

Lemma is_nan_Prim2SF f : is_nan f = true <-> Prim2SF f = S754_nan.
Proof.
  split.
  - intros H. unfold Prim2SF. now rewrite H.
  - intros H. unfold is_nan. rewrite FloatAxioms.eqb_spec, H. reflexivity.
Qed.

(** Every NaN is the value [nan]. *)
Lemma is_nan_eq f : is_nan f = true -> f = nan.
Proof.
  intros H. apply Prim2SF_inj. rewrite Prim2SF_nan. now apply is_nan_Prim2SF.
Qed.

Lemma Add_spec x y : Prim2SF (Add x y) = SF64add (Prim2SF x) (Prim2SF y).
Proof. unfold Add. apply FloatAxioms.add_spec. Qed.

(** Addition of [SpecFloat] is commutative, case by case on the two
    operands; two finite operands are aligned on the smaller exponent and
    their mantissas added as integers. *)
Lemma SFadd_comm (p e : Z) (a b : spec_float) : SFadd p e a b = SFadd p e b a.
Proof.
  destruct a as [sa|sa| |sa ma ea], b as [sb|sb| |sb mb eb];
    try reflexivity; try (destruct sa, sb; reflexivity).
  cbn [SFadd]. rewrite (Z.min_comm eb ea). f_equal. apply Z.add_comm.
Qed.

Lemma go_eq_refl x : go_eq x x = negb (is_nan x).
Proof. unfold is_nan. now rewrite Bool.negb_involutive. Qed.

(** ** Theorems on [Add] and [Verify] *)

(** C1: for every pair of float64 inputs, [Add x y] is the float64 sum of the
    two: seen through [Prim2SF], it is the IEEE 754 binary64 addition
    [SF64add] of the operands' values. *)
Theorem Add_is_float64_sum (x y : float) :
  Add x y = (x + y)%float /\
  Prim2SF (Add x y) = SF64add (Prim2SF x) (Prim2SF y).
Proof. split; [reflexivity | apply Add_spec]. Qed.

(** Through the interface, the calculator's methods are the two functions. *)
Example calculator_methods (x y : float) :
  nc_Add Calculator x y = Add x y /\ nc_Verify Calculator x y = Verify x y.
Proof. split; reflexivity. Qed.

(** The sums the test file asks for. *)
Example Add_negative_numbers : Add (-5) (-5) = (-10)%float.
Proof. reflexivity. Qed.

Example Add_five_five : Add 5 5 = 10%float.
Proof. reflexivity. Qed.

(** C2: [Verify] is the constant function [true], whatever the two inputs
    are (equal or not, NaN or infinite). *)
Theorem Verify_always_true (got want : float) : Verify got want = true.
Proof. reflexivity. Qed.

Example Verify_on_unequal_and_special :
  Verify 0 1 = true /\ Verify nan nan = true /\
  Verify infinity neg_infinity = true.
Proof. repeat split. Qed.

(** C3: [Add] is commutative.  The two results are the same float64 value
    for every pair of inputs, so they agree within any tolerance; Go's [==]
    reports them equal exactly when the sum is not NaN. *)
Theorem Add_comm (x y : float) :
  Add x y = Add y x /\
  go_eq (Add x y) (Add y x) = negb (IsNaN (Add x y)).
Proof.
  assert (E : Add x y = Add y x).
  { apply Prim2SF_inj. rewrite !Add_spec. apply SFadd_comm. }
  split; [exact E|]. rewrite <- E. apply go_eq_refl.
Qed.

(** C5: [Add(0, 0)] is the float64 zero (positive zero), and the comparison
    of TestAddZeros, [expected != actual], is false. *)
Theorem Add_zero_zero :
  Add 0 0 = 0%float /\ go_ne 0 (Add 0 0) = false.
Proof. split; reflexivity. Qed.

(** C8: at the non-finite edge cases [Add] follows IEEE 754: a NaN operand
    gives NaN, and so does the sum of the two opposite infinities. *)
Theorem Add_nan_inf (y : float) :
  Add nan y = nan /\ IsNaN (Add nan y) = true /\
  Add infinity neg_infinity = nan /\ IsNaN (Add infinity neg_infinity) = true.
Proof.
  assert (E : Add nan y = nan).
  { apply Prim2SF_inj. rewrite Add_spec, Prim2SF_nan. reflexivity. }
  rewrite E. repeat split.
Qed.

(** ** Associativity: where it fails and where it holds *)

Lemma digits2_pos_bounds (m : positive) :
  2 ^ (Z.pos (digits2_pos m) - 1) <= Z.pos m < 2 ^ Z.pos (digits2_pos m).
Proof.
  induction m as [p IH|p IH|]; cbn [digits2_pos]; [| |cbn; lia].
  all: rewrite Pos2Z.inj_succ.
  all: replace (Z.succ (Z.pos (digits2_pos p)) - 1)
         with (Z.succ (Z.pos (digits2_pos p) - 1)) by lia.
  all: rewrite !Z.pow_succ_r by lia; lia.
Qed.

(** What [valid_binary] says of a finite binary64: the exponent is the
    canonical one for the mantissa's length, and in range. *)
Lemma valid_finite_inv s m e :
  valid_binary (S754_finite s m e) = true ->
  e = Z.max (Z.pos (digits2_pos m) + e - 53) (-1074) /\ e <= 971.
Proof.
  cbn [SpecFloat.valid_binary]. unfold bounded, canonical_mantissa, fexp, SpecFloat.emin.
  change prec with 53. change emax with 1024.
  intros H. apply andb_prop in H as [H1 H2].
  apply Z.eqb_eq in H1. apply Z.leb_le in H2. lia.
Qed.

Lemma canonical_unique_le m1 e1 m2 e2 :
  e1 = Z.max (Z.pos (digits2_pos m1) + e1 - 53) (-1074) ->
  e2 = Z.max (Z.pos (digits2_pos m2) + e2 - 53) (-1074) ->
  e1 <= e2 ->
  Z.pos m1 * 2 ^ (e1 + 1074) = Z.pos m2 * 2 ^ (e2 + 1074) ->
  m1 = m2 /\ e1 = e2.
Proof.
  intros C1 C2 Hle Hv.
  assert (Hk : e2 + 1074 = (e2 - e1) + (e1 + 1074)) by lia.
  rewrite Hk, (Z.pow_add_r 2 (e2 - e1) (e1 + 1074)), Z.mul_assoc in Hv by lia.
  apply Z.mul_reg_r in Hv; [|apply Z.pow_nonzero; lia].
  destruct (Z.eq_dec e1 e2) as [->|Hne].
  - rewrite Z.sub_diag in Hv. cbn in Hv. split; [lia | reflexivity].
  - exfalso.
    pose proof (digits2_pos_bounds m1) as [_ U1].
    pose proof (digits2_pos_bounds m2) as [L2 _].
    assert (D2 : Z.pos (digits2_pos m2) = 53) by lia.
    rewrite D2 in L2. change (53 - 1) with 52 in L2.
    assert (Hp : 2 ^ (52 + (e2 - e1)) < 2 ^ Z.pos (digits2_pos m1)).
    { rewrite Z.pow_add_r by lia.
      assert (0 < 2 ^ (e2 - e1)) by (apply Z.pow_pos_nonneg; lia). nia. }
    apply Z.pow_lt_mono_r_iff in Hp; lia.
Qed.

Lemma canonical_unique m1 e1 m2 e2 :
  e1 = Z.max (Z.pos (digits2_pos m1) + e1 - 53) (-1074) ->
  e2 = Z.max (Z.pos (digits2_pos m2) + e2 - 53) (-1074) ->
  Z.pos m1 * 2 ^ (e1 + 1074) = Z.pos m2 * 2 ^ (e2 + 1074) ->
  m1 = m2 /\ e1 = e2.
Proof.
  intros C1 C2 Hv. destruct (Z.le_ge_cases e1 e2) as [H|H].
  - now apply canonical_unique_le.
  - symmetry in Hv. destruct (canonical_unique_le m2 e2 m1 e1 C2 C1 H Hv). now split.
Qed.

(** Two valid binary64 values with the same non-zero value are the same
    float: the representation is canonical. *)
Lemma SFscaled_inj (a b : spec_float) (n : Z) :
  valid_binary a = true -> valid_binary b = true ->
  SFscaled a = Some n -> SFscaled b = Some n -> n <> 0 -> a = b.
Proof.
  intros Va Vb Ha Hb Hn.
  destruct a as [sa|sa| |sa ma ea]; cbn in Ha; try discriminate; [congruence|].
  destruct b as [sb|sb| |sb mb eb]; cbn in Hb; try discriminate; [congruence|].
  apply valid_finite_inv in Va as [Ca _], Vb as [Cb _].
  injection Ha as Ha. injection Hb as Hb.
  assert (Pa : 0 < 2 ^ (ea + 1074)) by (apply Z.pow_pos_nonneg; lia).
  assert (Pb : 0 < 2 ^ (eb + 1074)) by (apply Z.pow_pos_nonneg; lia).
  assert (Hs : sa = sb).
  { destruct sa, sb; cbn in Ha, Hb; try reflexivity; exfalso; nia. }
  subst sb.
  assert (Hv : Z.pos ma * 2 ^ (ea + 1074) = Z.pos mb * 2 ^ (eb + 1074)).
  { destruct sa; cbn in Ha, Hb; lia. }
  destruct (canonical_unique ma ea mb eb Ca Cb Hv) as [-> ->]. reflexivity.
Qed.

(** A valid binary64 whose value is zero is one of the two zeros. *)
Lemma SFscaled_zero (a : spec_float) :
  valid_binary a = true -> SFscaled a = Some 0 -> exists s, a = S754_zero s.
Proof.
  intros Va Ha. destruct a as [sa|sa| |sa ma ea]; cbn in Ha; try discriminate.
  - now exists sa.
  - exfalso. apply valid_finite_inv in Va as [Ca _]. injection Ha as Ha.
    assert (0 < 2 ^ (ea + 1074)) by (apply Z.pow_pos_nonneg; lia).
    destruct sa; cbn in Ha; nia.
Qed.

Lemma Pos_iter_xO (m d : positive) :
  Z.pos (Pos.iter xO m d) = Z.pos m * 2 ^ Z.pos d.
Proof.
  induction d as [|d IH] using Pos.peano_ind.
  - cbn. lia.
  - rewrite Pos.iter_succ, Pos2Z.inj_succ, Z.pow_succ_r by lia.
    rewrite Pos2Z.inj_xO, IH. lia.
Qed.

(** Aligning a mantissa on a smaller exponent multiplies it by the power of
    two between the exponents. *)
Lemma shl_align_fst (mx : positive) (ex ez : Z) :
  ez <= ex -> Z.pos (fst (shl_align mx ex ez)) = Z.pos mx * 2 ^ (ex - ez).
Proof.
  intros H. unfold shl_align. destruct (ez - ex) as [|d|d] eqn:E.
  - replace (ex - ez) with 0 by lia. cbn. lia.
  - lia.
  - cbn [fst]. rewrite Pos_iter_xO. f_equal. f_equal. lia.
Qed.

(** The integer that [SFadd] hands to [binary_normalize] for two finite
    operands is their real sum, counted in units of the smaller exponent. *)
Lemma aligned_sum_scaled sx mx ex sy my ey :
  -1074 <= ex -> -1074 <= ey ->
  (cond_Zopp sx (Z.pos (fst (shl_align mx ex (Z.min ex ey)))) +
   cond_Zopp sy (Z.pos (fst (shl_align my ey (Z.min ex ey))))) * 2 ^ (Z.min ex ey + 1074) =
  cond_Zopp sx (Z.pos mx) * 2 ^ (ex + 1074) + cond_Zopp sy (Z.pos my) * 2 ^ (ey + 1074).
Proof.
  intros Hx Hy. rewrite !shl_align_fst by lia.
  set (ez := Z.min ex ey).
  replace (ex + 1074) with ((ex - ez) + (ez + 1074)) by lia.
  replace (ey + 1074) with ((ey - ez) + (ez + 1074)) by lia.
  rewrite (Z.pow_add_r 2 (ex - ez)), (Z.pow_add_r 2 (ey - ez)) by lia.
  destruct sx, sy; cbn [cond_Zopp]; ring.
Qed.

(** An exact sum is the negative zero only when both operands are. *)
Lemma SFis_neg_zero_add (u v : spec_float) (a b : Z) :
  valid_binary u = true -> valid_binary v = true ->
  SFscaled u = Some a -> SFscaled v = Some b ->
  SFscaled (SF64add u v) = Some (a + b) ->
  SFis_neg_zero (SF64add u v) = SFis_neg_zero u && SFis_neg_zero v.
Proof.
  intros Vu Vv Hu Hv Hs.
  destruct u as [su|su| |su mu eu]; cbn in Hu; try discriminate;
    destruct v as [sv|sv| |sv mv ev]; cbn in Hv; try discriminate.
  - destruct su, sv; reflexivity.
  - destruct su; reflexivity.
  - destruct sv; reflexivity.
  - apply valid_finite_inv in Vu as [Cu _], Vv as [Cv _].
    injection Hu as <-. injection Hv as <-.
    pose proof (aligned_sum_scaled su mu eu sv mv ev ltac:(lia) ltac:(lia)) as Hal.
    unfold SF64add in *. cbn [SFadd] in *. cbn [SFis_neg_zero andb].
    destruct (cond_Zopp su (Z.pos (fst (shl_align mu eu (Z.min eu ev)))) +
              cond_Zopp sv (Z.pos (fst (shl_align mv ev (Z.min eu ev))))) as [|m|m] eqn:Em.
    all: cbn [binary_normalize] in *; try reflexivity.
    (* a non-zero aligned sum: were the result a zero, the sum would be 0 *)
    all: match goal with |- context [binary_round ?p ?e ?s ?n ?z] =>
           destruct (binary_round p e s n z) as [s'|s'| |s' m' e'] end.
    all: try reflexivity.
    all: exfalso; cbn in Hs; injection Hs as Hs; rewrite <- Hal in Hs.
    all: assert (0 < 2 ^ (Z.min eu ev + 1074)) by (apply Z.pow_pos_nonneg; lia); nia.
Qed.

Lemma exact_sum_inv (x y : float) :
  exact_sum x y = true ->
  exists a b, scaled x = Some a /\ scaled y = Some b /\ scaled (Add x y) = Some (a + b).
Proof.
  unfold exact_sum. intros H.
  destruct (scaled x) as [a|]; [|discriminate].
  destruct (scaled y) as [b|]; [|discriminate].
  destruct (scaled (Add x y)) as [c|]; [|discriminate].
  apply Z.eqb_eq in H. subst c. now exists a, b.
Qed.

(** C4, as the specification states it, fails: adding the largest finite
    float64 to itself overflows to [+Inf], and [+Inf] stays when the same
    value is subtracted again, whereas the other grouping cancels first and
    returns the finite value.  The two results are an infinite distance
    apart, beyond any tolerance. *)
Lemma Add_not_assoc :
  Add (Add MaxFloat64 MaxFloat64) (- MaxFloat64) = infinity /\
  Add MaxFloat64 (Add MaxFloat64 (- MaxFloat64)) = MaxFloat64 /\
  Add (Add MaxFloat64 MaxFloat64) (- MaxFloat64)
    <> Add MaxFloat64 (Add MaxFloat64 (- MaxFloat64)) /\
  go_eq (Add (Add MaxFloat64 MaxFloat64) (- MaxFloat64))
        (Add MaxFloat64 (Add MaxFloat64 (- MaxFloat64))) = false /\
  abs (Add (Add MaxFloat64 MaxFloat64) (- MaxFloat64)
       - Add MaxFloat64 (Add MaxFloat64 (- MaxFloat64))) = infinity.
Proof.
  repeat split; try (vm_compute; reflexivity).
  intros H. apply (f_equal is_infinity) in H. vm_compute in H. discriminate.
Qed.

(** Rounding alone breaks it too, without any overflow: with [2^53], [1] and
    [-2^53] one grouping returns [0] and the other [1]. *)
Example rounding_breaks_assoc :
  Add (Add 0x1p53 1) (-0x1p53) = 0%float /\
  Add 0x1p53 (Add 1 (-0x1p53)) = 1%float.
Proof. split; vm_compute; reflexivity. Qed.

(** Where none of the four sums (the two inner ones and the two outer ones)
    is rounded or overflows, the two groupings are the same float64, the
    sign of a zero result included. *)
Theorem Add_assoc_exact (x y z : float) :
  exact_sum x y = true -> exact_sum (Add x y) z = true ->
  exact_sum y z = true -> exact_sum x (Add y z) = true ->
  Add (Add x y) z = Add x (Add y z).
Proof.
  intros Hxy Hl Hyz Hr.
  apply exact_sum_inv in Hxy as (a & b & Ha & Hb & Hab).
  apply exact_sum_inv in Hl as (ab & c & Hab' & Hc & Habc).
  apply exact_sum_inv in Hyz as (b' & c' & Hb' & Hc' & Hbc).
  apply exact_sum_inv in Hr as (a' & bc & Ha' & Hbc' & Habc').
  assert (ab = a + b) by congruence. assert (b' = b) by congruence.
  assert (c' = c) by congruence. assert (a' = a) by congruence.
  assert (bc = b + c) by congruence. subst ab b' c' a' bc.
  replace (a + (b + c)) with (a + b + c) in Habc' by lia.
  unfold scaled in *.
  apply Prim2SF_inj.
  destruct (Z.eq_dec (a + b + c) 0) as [E0|Hn].
  - rewrite E0 in Habc, Habc'.
    destruct (SFscaled_zero _ (Prim2SF_valid _) Habc) as [sl El].
    destruct (SFscaled_zero _ (Prim2SF_valid _) Habc') as [sr Er].
    assert (Nl : SFis_neg_zero (Prim2SF (Add (Add x y) z)) =
                 SFis_neg_zero (Prim2SF x) && SFis_neg_zero (Prim2SF y) && SFis_neg_zero (Prim2SF z)).
    { rewrite (Add_spec (Add x y) z).
      rewrite (SFis_neg_zero_add _ _ (a + b) c) by
        (first [apply Prim2SF_valid | assumption | rewrite <- Add_spec, E0; assumption]).
      rewrite (Add_spec x y).
      rewrite (SFis_neg_zero_add _ _ a b) by
        (first [apply Prim2SF_valid | assumption | rewrite <- Add_spec; assumption]).
      reflexivity. }
    assert (Nr : SFis_neg_zero (Prim2SF (Add x (Add y z))) =
                 SFis_neg_zero (Prim2SF x) && (SFis_neg_zero (Prim2SF y) && SFis_neg_zero (Prim2SF z))).
    { rewrite (Add_spec x (Add y z)).
      rewrite (SFis_neg_zero_add _ _ a (b + c)) by
        (first [apply Prim2SF_valid | assumption
               | rewrite <- Add_spec; replace (a + (b + c)) with 0 by lia; assumption]).
      rewrite (Add_spec y z).
      rewrite (SFis_neg_zero_add _ _ b c) by
        (first [apply Prim2SF_valid | assumption | rewrite <- Add_spec; assumption]).
      reflexivity. }
    rewrite <- Bool.andb_assoc, <- Nr, El, Er in Nl.
    rewrite El, Er. destruct sl, sr; cbn in Nl; congruence.
  - apply (SFscaled_inj _ _ (a + b + c)); auto using Prim2SF_valid.
Qed.

(** The hypotheses hold on [1], [2], [3]: both groupings return [6]. *)
Lemma Add_assoc_exact_witness :
  exact_sum 1 2 = true /\ exact_sum (Add 1 2) 3 = true /\
  exact_sum 2 3 = true /\ exact_sum 1 (Add 2 3) = true /\
  Add (Add 1 2) 3 = Add 1 (Add 2 3).
Proof.
  do 4 (split; [vm_compute; reflexivity|]).
  apply (Add_assoc_exact 1 2 3); vm_compute; reflexivity.
Defined.

(** They hold on fractions and mixed signs as well. *)
Example exact_sum_fractions :
  exact_sum 0.5 0.25 = true /\ exact_sum (Add 0.5 0.25) (-0.125) = true /\
  exact_sum 0.25 (-0.125) = true /\ exact_sum 0.5 (Add 0.25 (-0.125)) = true.
Proof. repeat split; vm_compute; reflexivity. Qed.

(** And they are what fails on the two triples above. *)
Example exact_sum_fails :
  exact_sum MaxFloat64 MaxFloat64 = false /\ exact_sum 0x1p53 1 = false.
Proof. split; vm_compute; reflexivity. Qed.


(** ** Totality and purity of [Add] and [Verify] *)

(** C6: on every pair of float64 inputs and in every state of the program,
    a call of [Add] and a call of [Verify] return a value (they never stop
    the test or fail), leave the state as it was, and return a value that
    does not depend on the state: two calls on equal inputs agree. *)
Theorem Add_Verify_total_pure (x y : float) (w w' : World) :
  go_Add x y w = (Return (Add x y), w) /\
  go_Verify x y w = (Return (Verify x y), w) /\
  fst (go_Add x y w) = fst (go_Add x y w') /\
  fst (go_Verify x y w) = fst (go_Verify x y w').
Proof. unfold go_Add, go_Verify, ret. repeat split. Qed.

Example Add_Verify_on_special_values (w : World) :
  go_Add nan infinity w = (Return nan, w) /\
  go_Add infinity infinity w = (Return infinity, w) /\
  go_Add neg_infinity 1 w = (Return neg_infinity, w) /\
  go_Verify nan neg_infinity w = (Return true, w).
Proof. repeat split. Qed.

(** The two basic tests pass: they return and do not mark the test failed. *)
Example TestAddZeros_passes (w : World) : TestAddZeros w = (Return tt, w).
Proof. reflexivity. Qed.

Example TestAddNegativeNumbers_passes (w : World) :
  TestAddNegativeNumbers w = (Return tt, w).
Proof. reflexivity. Qed.

(** ** The parsing helpers *)

Section ParsingFacts.

Context {error : Type}.
Variable ParseFloat : string -> float * option error.

Lemma testFloatParserReturnsError_eq (input : string) :
  testFloatParserReturnsError ParseFloat input = ParseFloat input.
Proof.
  unfold testFloatParserReturnsError.
  destruct (ParseFloat input) as [out [e|]]; reflexivity.
Qed.

Lemma testFloatParserFails_eq (input : string) (w : World) :
  testFloatParserFails ParseFloat input w =
  match snd (ParseFloat input) with
  | None => (Return (fst (ParseFloat input)), w)
  | Some _ => (Goexit, {| environ := environ w; test := {| failed := true |} |})
  end.
Proof.
  unfold testFloatParserFails.
  destruct (ParseFloat input) as [out [e|]]; reflexivity.
Qed.

(** C7: the two helpers surface a parsing failure in their two ways.
    [testFloatParserReturnsError] returns what the parser returned, so its
    error is non-nil exactly when parsing failed, and on success it is the
    parsed value with a nil error.  [testFloatParserFails] stops the test at
    once, marked as failed, exactly when parsing failed, and otherwise
    returns the parsed value and leaves the test as it was. *)
Theorem parser_helpers_surface_failure (input : string) (w : World) :
  testFloatParserReturnsError ParseFloat input = ParseFloat input /\
  (snd (testFloatParserReturnsError ParseFloat input) <> None <->
   snd (ParseFloat input) <> None) /\
  testFloatParserFails ParseFloat input w =
    match snd (ParseFloat input) with
    | None => (Return (fst (ParseFloat input)), w)
    | Some _ => (Goexit, {| environ := environ w; test := {| failed := true |} |})
    end /\
  (fst (testFloatParserFails ParseFloat input w) = Goexit /\
   failed (test (snd (testFloatParserFails ParseFloat input w))) = true <->
   snd (ParseFloat input) <> None).
Proof.
  rewrite testFloatParserReturnsError_eq, testFloatParserFails_eq.
  split; [reflexivity|]. split; [reflexivity|]. split; [reflexivity|].
  destruct (snd (ParseFloat input)) as [e|]; cbn.
  - split; [discriminate | now split].
  - split; [intros [H _]; discriminate | congruence].
Qed.

(** C10: on an input that parses, the two helpers return the same value. *)
Theorem parser_helpers_agree_on_success (input : string) (w : World) :
  snd (ParseFloat input) = None ->
  testFloatParserFails ParseFloat input w =
  (Return (fst (testFloatParserReturnsError ParseFloat input)), w).
Proof.
  intros H. rewrite testFloatParserReturnsError_eq, testFloatParserFails_eq.
  now rewrite H.
Qed.

End ParsingFacts.

(** With the test double, on the literal of the tests. *)
Lemma parser_helpers_agree_witness :
  snd (stubParseFloat "10") = None /\
  testFloatParserFails stubParseFloat "10" (fresh ∅) =
  (Return (fst (testFloatParserReturnsError stubParseFloat "10")), fresh ∅).
Proof.
  split; [vm_compute; reflexivity|].
  apply (parser_helpers_agree_on_success stubParseFloat "10" (fresh ∅)).
  vm_compute; reflexivity.
Defined.

Example helpers_on_bad_input (w : World) :
  testFloatParserReturnsError stubParseFloat "ten" = (0%float, Some ErrSyntax) /\
  testFloatParserFails stubParseFloat "ten" w =
  (Goexit, {| environ := environ w; test := {| failed := true |} |}).
Proof. split; reflexivity. Qed.

Example TestExampleHelper_passes (w : World) :
  TestExampleHelper stubParseFloat w = (Return tt, w) /\
  TestExampleHelperTwo stubParseFloat w = (Return tt, w).
Proof. split; reflexivity. Qed.

(** ** [testSetENV] and the environment *)

Lemma valid_key_nonempty (key : string) : valid_key key = true -> key <> "".
Proof.
  unfold valid_key. intros H ->. discriminate.
Qed.

Lemma lookupEnv_set (env : gmap string string) (key v : string) :
  lookupEnv env key = (v, true) <-> key <> "" /\ env !! key = Some v.
Proof.
  unfold lookupEnv. destruct (String.eqb_spec key "") as [->|Hne].
  - split; [discriminate | intros [[] _]; reflexivity].
  - destruct (env !! key) as [v'|]; split.
    + intros [= ->]. now split.
    + intros [_ [= ->]]. reflexivity.
    + discriminate.
    + intros [_ [=]].
Qed.

Lemma lookupEnv_unset (env : gmap string string) (key : string) :
  lookupEnv env key = ("", false) <-> key = "" \/ env !! key = None.
Proof.
  unfold lookupEnv. destruct (String.eqb_spec key "") as [->|Hne].
  - split; [now left | reflexivity].
  - destruct (env !! key) as [v'|]; split.
    + discriminate.
    + intros [?|[=]]. contradiction.
    + now right.
    + reflexivity.
Qed.

(** The empty environment is well formed and [os.Setenv] keeps it so. *)
Lemma env_wf_empty : env_wf ∅.
Proof. intros k v H. rewrite lookup_empty in H. discriminate. Qed.

Lemma os_Setenv_wf (key value : string) (w : World) :
  env_wf (environ w) -> env_wf (environ (snd (os_Setenv key value w))).
Proof.
  intros Hwf. unfold os_Setenv.
  destruct (valid_key key && valid_value value) eqn:V; cbn [snd environ]; [|exact Hwf].
  apply andb_prop in V as [Vk Vv]. intros k v H.
  destruct (decide (key = k)) as [<-|Hne].
  - rewrite lookup_insert_eq in H. injection H as <-. now split.
  - rewrite lookup_insert_ne in H by exact Hne. now apply Hwf.
Qed.

(** What the helper followed by its closure does to the world: two calls of
    [os.Setenv], the second with the value read at the start. *)
Lemma set_then_reset_run (key value : string) (w : World) :
  set_then_reset key value w =
  (Return tt,
   snd (os_Setenv key (fst (lookupEnv (environ w) key))
          (snd (os_Setenv key value w)))).
Proof.
  unfold set_then_reset, testSetENV, bind, ret, os_Getenv, os_Setenv.
  cbn [fst snd].
  destruct (valid_key key && valid_value value); cbn [fst snd environ test];
    destruct (valid_key key && valid_value (fst (lookupEnv (environ w) key)));
    reflexivity.
Qed.

(** C9, as stated, fails on a name [os.Setenv] refuses, the empty name or a
    name with ['=']: the variable is unset before, both calls of [os.Setenv]
    return an error, which is dropped, and the variable is still unset after
    the closure has run; it has not been set to the empty string. *)
Lemma testSetENV_refused_name_stays_unset :
  lookupEnv (environ (fresh ∅)) "" = ("", false) /\
  set_then_reset "" "bar" (fresh ∅) = (Return tt, fresh ∅) /\
  lookupEnv (environ (snd (set_then_reset "" "bar" (fresh ∅)))) "" = ("", false) /\
  lookupEnv (environ (fresh ∅)) "a=b" = ("", false) /\
  os_Setenv "a=b" "bar" (fresh ∅) = (Return (Some EINVAL), fresh ∅) /\
  lookupEnv (environ (snd (set_then_reset "a=b" "bar" (fresh ∅)))) "a=b" = ("", false).
Proof. repeat split; vm_compute; reflexivity. Qed.

(** C9, amended: in a well-formed environment, the helper followed by its
    closure returns and leaves the test as it was, and
    - if the variable was set, the whole environment is again what it was,
      so the variable holds its original value;
    - if the variable was unset and its name is one [os.Setenv] accepts, it
      is now set, to the empty string: the closure does not unset it;
    - if the name is one [os.Setenv] refuses, nothing has changed. *)
Theorem testSetENV_roundtrip (key value : string) (w : World) :
  env_wf (environ w) ->
  exists w', set_then_reset key value w = (Return tt, w') /\
    test w' = test w /\
    (forall v0, lookupEnv (environ w) key = (v0, true) ->
       environ w' = environ w /\ lookupEnv (environ w') key = (v0, true)) /\
    (lookupEnv (environ w) key = ("", false) -> valid_key key = true ->
       lookupEnv (environ w') key = ("", true)) /\
    (valid_key key = false -> w' = w).
Proof.
  intros Hwf. eexists. split; [apply set_then_reset_run|].
  destruct w as [env t]. cbn [environ] in *. unfold os_Setenv. cbn [environ test].
  destruct (valid_key key) eqn:Vk; cbn [andb].
  - pose proof (valid_key_nonempty key Vk) as Hne.
    destruct (env !! key) as [v0|] eqn:Ek.
    + (* set before *)
      assert (El : lookupEnv env key = (v0, true)) by now apply lookupEnv_set.
      destruct (Hwf key v0 Ek) as [_ Vo]. rewrite El. cbn [fst].
      assert (Ee : forall e : gmap string string, e !! key = Some v0 -> <[key:=v0]> e = e)
        by (intros e He; now apply insert_id).
      destruct (valid_value value); cbn [snd environ test]; rewrite Vo; cbn [snd environ test];
        rewrite ?insert_insert_eq, (Ee env Ek); split_and!.
      all: try reflexivity; try discriminate.
      all: intros v0' [= <-]; split; [reflexivity | exact El].
    + (* unset before *)
      assert (El : lookupEnv env key = ("", false)) by (apply lookupEnv_unset; now right).
      rewrite El. cbn [fst]. change (valid_value "") with true.
      destruct (valid_value value); cbn [snd environ test]; split_and!.
      all: try reflexivity; try discriminate.
      all: intros _ _; apply lookupEnv_set; split; [exact Hne | apply lookup_insert_eq].
  - cbn [snd environ test]. split_and!; try reflexivity; try discriminate.
    intros v0 H. now split.
Qed.

(** On the variable of the example, set beforehand to another value. *)
Lemma testSetENV_roundtrip_witness :
  env_wf {["foo" := "baz"]} /\
  lookupEnv (environ (snd (set_then_reset "foo" "bar" (fresh {["foo" := "baz"]})))) "foo"
  = ("baz", true).
Proof.
  assert (Hwf : env_wf {["foo" := "baz"]}).
  { intros k v H. apply lookup_singleton_Some in H as [<- <-]. split; reflexivity. }
  split; [exact Hwf|].
  destruct (testSetENV_roundtrip "foo" "bar" (fresh {["foo" := "baz"]}) Hwf)
    as (w' & E & _ & H & _).
  rewrite E. apply H. reflexivity.
Defined.

(** Unset beforehand, the variable ends set to the empty string. *)
Example testSetENV_unset_becomes_empty :
  lookupEnv (environ (fresh ∅)) "foo" = ("", false) /\
  lookupEnv (environ (snd (set_then_reset "foo" "bar" (fresh ∅)))) "foo" = ("", true).
Proof. split; vm_compute; reflexivity. Qed.

(** TestExampleHelperThree defers the helper, not its closure: the test
    passes and the variable is left set to the new value. *)
Example TestExampleHelperThree_leaves_foo_set :
  fst (TestExampleHelperThree (fresh ∅)) = Return tt /\
  test (snd (TestExampleHelperThree (fresh ∅))) = {| failed := false |} /\
  lookupEnv (environ (snd (TestExampleHelperThree (fresh ∅)))) "foo" = ("bar", true).
Proof. repeat split; vm_compute; reflexivity. Qed.

(** ** More on [Add]: zeros, opposites and NaN *)

Lemma go_eq_SF (x y : float) : go_eq x y = SFeqb (Prim2SF x) (Prim2SF y).
Proof. unfold go_eq. apply FloatAxioms.eqb_spec. Qed.

Lemma SFeqb_refl (a : spec_float) :
  SFeqb a a = match a with S754_nan => false | _ => true end.
Proof.
  destruct a as [s|s| |s m e]; try reflexivity; try (destruct s; reflexivity).
  unfold SFeqb, SFcompare.
  destruct s; rewrite Z.compare_refl, Pos.compare_cont_refl; reflexivity.
Qed.

Lemma is_nan_SF (x : float) :
  is_nan x = match Prim2SF x with S754_nan => true | _ => false end.
Proof.
  unfold is_nan. rewrite FloatAxioms.eqb_spec, SFeqb_refl.
  destruct (Prim2SF x); reflexivity.
Qed.

Lemma is_infinity_SF (x : float) :
  is_infinity x = match Prim2SF x with S754_infinity _ => true | _ => false end.
Proof.
  unfold is_infinity. rewrite FloatAxioms.eqb_spec, FloatAxioms.abs_spec.
  change (Prim2SF infinity) with (S754_infinity false).
  destruct (Prim2SF x) as [s|s| |s m e]; reflexivity.
Qed.

Lemma Prim2SF_opp (x : float) : Prim2SF (- x) = SFopp (Prim2SF x).
Proof. apply FloatAxioms.opp_spec. Qed.

Lemma Add_swap (x y : float) : Add x y = Add y x.
Proof. apply Prim2SF_inj. rewrite !Add_spec. apply SFadd_comm. Qed.

(** X1: the negative zero is the identity of [Add] on both sides, for every
    float64.  The positive zero is one for every value but the negative
    zero, which it turns into the positive zero. *)
Theorem Add_zero_identity (x : float) :
  Add x neg_zero = x /\ Add neg_zero x = x /\
  (x <> neg_zero -> Add x 0 = x /\ Add 0 x = x) /\
  Add neg_zero 0 = 0%float /\ Add 0 neg_zero = 0%float.
Proof.
  assert (R : Add x neg_zero = x).
  { apply Prim2SF_inj. rewrite Add_spec.
    change (Prim2SF neg_zero) with (S754_zero true).
    destruct (Prim2SF x) as [[|]|s| |s m e]; reflexivity. }
  assert (P : x <> neg_zero -> Add x 0 = x).
  { intros Hx. apply Prim2SF_inj. rewrite Add_spec.
    change (Prim2SF 0) with (S754_zero false).
    destruct (Prim2SF x) as [[|]|s| |s m e] eqn:E; try reflexivity.
    exfalso. apply Hx. apply Prim2SF_inj. exact E. }
  split_and!; try reflexivity.
  - exact R.
  - now rewrite Add_swap.
  - intros Hx. split; [now apply P|]. rewrite Add_swap. now apply P.
Qed.

Lemma shl_align_same (m : positive) (e : Z) : shl_align m e e = (m, e).
Proof. unfold shl_align. now rewrite Z.sub_diag. Qed.

(** X2: a float64 added to its opposite is the positive zero when it is
    finite (zeros included), and NaN when it is an infinity or NaN. *)
Theorem Add_opp_self (x : float) :
  Add x (- x) = if is_finite x then 0%float else nan.
Proof.
  apply Prim2SF_inj. unfold is_finite.
  rewrite Add_spec, Prim2SF_opp, is_nan_SF, is_infinity_SF.
  destruct (Prim2SF x) as [[|]|[|]| |s m e]; try reflexivity.
  cbn [orb negb]. change (Prim2SF 0) with (S754_zero false).
  unfold SF64add. cbn [SFadd SFopp].
  rewrite Z.min_id, shl_align_same. cbn [fst].
  replace (cond_Zopp s (Z.pos m) + cond_Zopp (negb s) (Z.pos m)) with 0
    by (destruct s; cbn; lia).
  reflexivity.
Qed.

(** Rounding keeps the sign it is given. *)
Lemma binary_round_aux_opp (p e : Z) (s : bool) (m ex : Z) (l : location) :
  binary_round_aux p e (negb s) m ex l = SFopp (binary_round_aux p e s m ex l).
Proof.
  unfold binary_round_aux.
  destruct (shr_fexp p e m ex l) as [mrs e'].
  destruct (shr_fexp p e _ e' loc_Exact) as [mrs' e''].
  destruct (shr_m mrs'); try reflexivity.
  destruct (e'' <=? e - p); reflexivity.
Qed.

Lemma binary_normalize_opp (p e : Z) (m ex : Z) :
  m <> 0 ->
  binary_normalize p e (- m) ex false = SFopp (binary_normalize p e m ex false).
Proof.
  intros Hm. destruct m as [|q|q]; [contradiction| |].
  - change (- Z.pos q) with (Z.neg q). cbn [binary_normalize]. unfold binary_round.
    destruct (shl_align q ex _) as [mz ez].
    apply (binary_round_aux_opp p e false).
  - change (- Z.neg q) with (Z.pos q). cbn [binary_normalize]. unfold binary_round.
    destruct (shl_align q ex _) as [mz ez].
    change true with (negb false) at 1. rewrite binary_round_aux_opp.
    now destruct (binary_round_aux p e false _ _ _) as [[|]|[|]| |[|] m' e'].
Qed.

Lemma cond_Zopp_negb (s : bool) (m : Z) : cond_Zopp (negb s) m = - cond_Zopp s m.
Proof. destruct s; cbn; lia. Qed.

(** Negating both operands negates the sum, or both sums are zeros. *)
Lemma SFadd_opp_opp (a b : spec_float) :
  SF64add (SFopp a) (SFopp b) = SFopp (SF64add a b) \/
  exists s s', SF64add (SFopp a) (SFopp b) = S754_zero s /\ SF64add a b = S754_zero s'.
Proof.
  destruct a as [[|]|[|]| |sa ma ea], b as [[|]|[|]| |sb mb eb];
    try (left; reflexivity);
    try (right; eexists _, _; split; reflexivity).
  unfold SF64add. cbn [SFadd SFopp]. rewrite !cond_Zopp_negb, <- Z.opp_add_distr.
  set (m := cond_Zopp sa _ + cond_Zopp sb _).
  destruct (Z.eq_dec m 0) as [->|Hm].
  - right. exists false, false. split; reflexivity.
  - left. now apply binary_normalize_opp.
Qed.

(** X3: [Add] is odd.  For every pair of float64, Go's [==] finds
    [Add(-x, -y)] equal to [-Add(x, y)] unless the sum is NaN (the two may
    differ in the sign of a zero, which [==] does not see); and when the sum
    is not a zero the two are the same float64. *)
Theorem Add_opp_opp (x y : float) :
  go_eq (Add (- x) (- y)) (- Add x y) = negb (IsNaN (Add x y)) /\
  (go_eq (Add x y) 0 = false -> Add (- x) (- y) = (- Add x y)%float).
Proof.
  pose proof (SFadd_opp_opp (Prim2SF x) (Prim2SF y)) as H.
  rewrite <- !Prim2SF_opp, <- !Add_spec, <- Prim2SF_opp in H.
  split.
  - rewrite IsNaN_is_nan, is_nan_SF, go_eq_SF.
    destruct H as [H|(s & s' & H1 & H2)].
    + rewrite H, SFeqb_refl, Prim2SF_opp.
      destruct (Prim2SF (Add x y)); reflexivity.
    + rewrite H1, Prim2SF_opp, H2. reflexivity.
  - intros Hz. apply Prim2SF_inj.
    destruct H as [H|(s & s' & H1 & H2)]; [exact H|].
    exfalso. rewrite go_eq_SF, H2 in Hz. discriminate.
Qed.

Lemma Add_opp_opp_witness :
  go_eq (Add 5 5) 0 = false /\ Add (-5) (-5) = (- Add 5 5)%float.
Proof.
  split; [vm_compute; reflexivity|].
  apply (proj2 (Add_opp_opp 5 5)). vm_compute; reflexivity.
Defined.

Lemma iter_pos_inv {A : Type} (P : A -> Prop) (f : A -> A) :
  (forall a, P a -> P (f a)) -> forall n a, P a -> P (SpecFloat.iter_pos f n a).
Proof.
  intros Hf. induction n as [n IH|n IH|]; intros a Ha; cbn [SpecFloat.iter_pos]; auto.
Qed.

Lemma shr_1_nonneg (mrs : shr_record) : 0 <= shr_m mrs -> 0 <= shr_m (shr_1 mrs).
Proof.
  destruct mrs as [m r s]. cbn [shr_m]. intros H.
  destruct m as [|[q|q|]|q]; cbn; lia.
Qed.

Lemma shr_fexp_nonneg (p e m ex : Z) (l : location) :
  0 <= m -> 0 <= shr_m (fst (shr_fexp p e m ex l)).
Proof.
  intros Hm. unfold shr_fexp, shr.
  assert (H0 : 0 <= shr_m (shr_record_of_loc m l)) by (destruct l as [|[| |]]; exact Hm).
  destruct (fexp p e (Zdigits2 m + ex) - ex) as [|n|n]; cbn [fst]; try exact H0.
  apply (iter_pos_inv (fun mrs => 0 <= shr_m mrs)); [apply shr_1_nonneg | exact H0].
Qed.

Lemma round_nearest_even_nonneg (m : Z) (l : location) :
  0 <= m -> 0 <= round_nearest_even m l.
Proof.
  intros Hm. destruct l as [|[| |]]; cbn; try lia. destruct (Z.even m); lia.
Qed.

(** Rounding a mantissa never produces NaN. *)
Lemma binary_round_aux_not_nan (p e : Z) (s : bool) (m ex : Z) (l : location) :
  0 <= m -> binary_round_aux p e s m ex l <> S754_nan.
Proof.
  intros Hm. unfold binary_round_aux.
  pose proof (shr_fexp_nonneg p e m ex l Hm) as H1.
  destruct (shr_fexp p e m ex l) as [mrs e']. cbn [fst] in H1.
  pose proof (shr_fexp_nonneg p e _ e' loc_Exact
                (round_nearest_even_nonneg _ (loc_of_shr_record mrs) H1)) as H2.
  destruct (shr_fexp p e _ e' loc_Exact) as [mrs' e'']. cbn [fst] in H2.
  destruct (shr_m mrs') as [|q|q]; [discriminate| |lia].
  destruct (e'' <=? e - p); discriminate.
Qed.

Lemma binary_normalize_not_nan (p e m ex : Z) :
  binary_normalize p e m ex false <> S754_nan.
Proof.
  destruct m as [|q|q]; cbn [binary_normalize]; [discriminate| |];
    unfold binary_round; destruct (shl_align q ex _) as [mz ez];
    apply binary_round_aux_not_nan; lia.
Qed.

(** X4: [Add] returns NaN in exactly three cases: an operand is NaN, or the
    operands are the two infinities of opposite signs, in either order.  The
    sum of two finite float64 is never NaN. *)
Theorem Add_IsNaN (x y : float) :
  IsNaN (Add x y) =
  IsNaN x || IsNaN y ||
  (go_eq x infinity && go_eq y neg_infinity) ||
  (go_eq x neg_infinity && go_eq y infinity).
Proof.
  rewrite !IsNaN_is_nan, !is_nan_SF, !go_eq_SF, Add_spec.
  change (Prim2SF infinity) with (S754_infinity false).
  change (Prim2SF neg_infinity) with (S754_infinity true).
  destruct (Prim2SF x) as [[|]|[|]| |sx mx ex], (Prim2SF y) as [[|]|[|]| |sy my ey];
    try reflexivity; try (destruct sx; reflexivity); try (destruct sy; reflexivity).
  unfold SF64add. cbn [SFadd].
  match goal with |- context [binary_normalize ?p ?e ?m ?z false] =>
    pose proof (binary_normalize_not_nan p e m z) as Hn;
    destruct (binary_normalize p e m z false) end; try contradiction.
  all: destruct sx, sy; reflexivity.
Qed.

(** ** The table-driven test *)

Lemma World_eta (w : World) :
  {| environ := environ w; test := {| failed := failed (test w) |} |} = w.
Proof. now destruct w as [env [f]]. Qed.

(** One subtest: it reports whether its row agrees with [Add], marks the
    parent failed when it does not, and touches nothing else. *)
Lemma t_Run_TestAdd_case (tc : testCase) (w : World) :
  t_Run (tc_name tc) (TestAdd_case tc) w =
  (Return (negb (row_fails tc)),
   {| environ := environ w;
      test := {| failed := failed (test w) || row_fails tc |} |}).
Proof.
  unfold t_Run, TestAdd_case, bind, go_Add, ret, assert_Equal, row_fails, go_ne.
  destruct (go_eq (tc_expected tc) (Add (tc_x tc) (tc_y tc))); reflexivity.
Qed.

(** The loop of TestAdd on any table, by induction on the table. *)
Lemma TestAdd_range_eq (cases : list testCase) (w : World) :
  TestAdd_range cases w =
  (Return tt,
   {| environ := environ w;
      test := {| failed := failed (test w) || existsb row_fails cases |} |}).
Proof.
  revert w. induction cases as [|tc rest IH]; intros w; cbn [TestAdd_range existsb].
  - unfold ret. now rewrite orb_false_r, World_eta.
  - unfold bind at 1. rewrite t_Run_TestAdd_case, IH. cbn [environ test failed].
    now rewrite orb_assoc.
Qed.

(** X5: the loop of TestAdd, on any table: it runs to the end of the table
    and returns (no row stops it), it leaves the environment untouched, and
    the test ends marked failed exactly when it was already or when some row
    of the table, wherever it stands, has an expected value that [==] finds
    different from [Add] of its operands. *)
Theorem TestAdd_range_outcome (cases : list testCase) (w : World) :
  fst (TestAdd_range cases w) = Return tt /\
  environ (snd (TestAdd_range cases w)) = environ w /\
  failed (test (snd (TestAdd_range cases w))) =
    failed (test w) || existsb row_fails cases.
Proof. rewrite TestAdd_range_eq. now split_and!. Qed.

(** On its own table the test passes. *)
Example TestAdd_passes (w : World) : TestAdd w = (Return tt, w).
Proof.
  unfold TestAdd. rewrite TestAdd_range_eq.
  replace (existsb row_fails testCases) with false by (vm_compute; reflexivity).
  now rewrite orb_false_r, World_eta.
Qed.

(** A failing first row does not hide the rows after it, and a row that
    expects NaN fails even though [Add] returns NaN. *)
Example TestAdd_range_failing_rows (w : World) :
  failed (test (snd (TestAdd_range
    [ {| tc_name := "wrong"; tc_x := 1; tc_y := 1; tc_expected := 3 |};
      {| tc_name := "right"; tc_x := 1; tc_y := 1; tc_expected := 2 |} ] w))) = true /\
  failed (test (snd (TestAdd_range
    [ {| tc_name := "nan"; tc_x := nan; tc_y := 1; tc_expected := nan |} ] w))) = true.
Proof. rewrite !TestAdd_range_eq. cbn [snd test failed]. split; apply orb_true_r. Qed.

(** ** The tests built on the parsing helpers *)

Section HelperTests.

Context {error : Type}.
Variable ParseFloat : string -> float * option error.

(** X6: TestExampleHelper and TestExampleHelperTwo are the same test, for
    every parser and from every state: the helper that fails the test on its
    own changes nothing in the outcome of the test that uses it. *)
Theorem TestExampleHelper_same_as_Two (w : World) :
  TestExampleHelper ParseFloat w = TestExampleHelperTwo ParseFloat w.
Proof.
  unfold TestExampleHelper, TestExampleHelperTwo, testFloatParserReturnsError,
    testFloatParserFails.
  destruct (ParseFloat "10") as [out [e|]]; reflexivity.
Qed.

Lemma TestExampleHelperTwo_eq (w : World) :
  TestExampleHelperTwo ParseFloat w =
  match snd (ParseFloat "10") with
  | Some _ => (Goexit, {| environ := environ w; test := {| failed := true |} |})
  | None =>
      if go_eq (fst (ParseFloat "10")) 10 then (Return tt, w)
      else (Return tt, {| environ := environ w; test := {| failed := true |} |})
  end.
Proof.
  unfold TestExampleHelperTwo, testFloatParserFails.
  destruct (ParseFloat "10") as [out [e|]]; [reflexivity|].
  cbv [bind ret go_Add assert_Equal t_Errorf fst snd].
  change (Add 5 5) with 10%float.
  destruct (go_eq out 10); reflexivity.
Qed.

(** X7: the outcome of TestExampleHelperTwo, for every parser.  It stops at
    once exactly when the parser reports an error; the environment is never
    touched; and the test ends marked failed exactly when it was already,
    or the parser reported an error, or the parsed value is not [== 10]. *)
Theorem TestExampleHelperTwo_outcome (w : World) :
  (fst (TestExampleHelperTwo ParseFloat w) = Goexit <->
   snd (ParseFloat "10") <> None) /\
  environ (snd (TestExampleHelperTwo ParseFloat w)) = environ w /\
  failed (test (snd (TestExampleHelperTwo ParseFloat w))) =
    failed (test w) ||
    match snd (ParseFloat "10") with
    | Some _ => true
    | None => go_ne (fst (ParseFloat "10")) 10
    end.
Proof.
  rewrite TestExampleHelperTwo_eq. unfold go_ne.
  destruct (snd (ParseFloat "10")) as [e|].
  - cbn. split_and!; [split; [discriminate | reflexivity] | reflexivity |].
    now rewrite orb_true_r.
  - destruct (go_eq (fst (ParseFloat "10")) 10); cbn.
    + split_and!; [split; [discriminate | congruence] | reflexivity |].
      now rewrite orb_false_r.
    + split_and!; [split; [discriminate | congruence] | reflexivity |].
      now rewrite orb_true_r.
Qed.

End HelperTests.

(** ** More on [testSetENV]: what it sets, what it keeps *)

(** The helper alone: it reads the variable, then one call of [os.Setenv]. *)
Lemma testSetENV_run (key value : string) (w : World) :
  testSetENV key value w =
  (Return (os_Setenv key (fst (lookupEnv (environ w) key)) ;;; ret tt),
   snd (os_Setenv key value w)).
Proof.
  unfold testSetENV, bind, ret, os_Getenv, os_Setenv. cbn [fst snd].
  destruct (valid_key key && valid_value value); reflexivity.
Qed.

Lemma os_Setenv_environ (key value : string) (w : World) :
  environ (snd (os_Setenv key value w)) =
  if valid_key key && valid_value value then <[key := value]> (environ w) else environ w.
Proof. unfold os_Setenv. now destruct (valid_key key && valid_value value). Qed.

Lemma os_Setenv_test (key value : string) (w : World) :
  test (snd (os_Setenv key value w)) = test w.
Proof. unfold os_Setenv. now destruct (valid_key key && valid_value value). Qed.

Lemma os_Setenv_other (key value k : string) (w : World) :
  k <> key -> environ (snd (os_Setenv key value w)) !! k = environ w !! k.
Proof.
  intros Hk. rewrite os_Setenv_environ.
  destruct (valid_key key && valid_value value); [|reflexivity].
  now rewrite lookup_insert_ne.
Qed.

Lemma os_Setenv_dom (key value : string) (w : World) :
  dom (environ w) ⊆ dom (environ (snd (os_Setenv key value w))).
Proof.
  rewrite os_Setenv_environ.
  destruct (valid_key key && valid_value value); [|reflexivity].
  rewrite dom_insert_L. set_solver.
Qed.

Lemma reset_run (key og : string) (w : World) :
  (os_Setenv key og ;;; ret tt) w = (Return tt, snd (os_Setenv key og w)).
Proof.
  unfold bind, ret, os_Setenv. now destruct (valid_key key && valid_value og).
Qed.

(** The value [testSetENV] remembers is one [os.Setenv] accepts, in a
    well-formed environment. *)
Lemma lookupEnv_valid_value (env : gmap string string) (key : string) :
  env_wf env -> valid_value (fst (lookupEnv env key)) = true.
Proof.
  intros Hwf. unfold lookupEnv. destruct (String.eqb key ""); [reflexivity|].
  destruct (env !! key) as [v|] eqn:E; [|reflexivity].
  cbn [fst]. now destruct (Hwf key v E).
Qed.

(** X8: what [testSetENV] itself does.  It returns its closure and leaves
    the test as it was.  With a name and a value [os.Setenv] accepts the
    variable then holds the new value; with a name or a value it refuses (a
    value with a NUL byte, say) the error is dropped and the environment is
    what it was.  No other variable is touched. *)
Theorem testSetENV_effect (key value : string) (w : World) :
  exists reset w1, testSetENV key value w = (Return reset, w1) /\
    test w1 = test w /\
    (valid_key key = true -> valid_value value = true ->
       lookupEnv (environ w1) key = (value, true)) /\
    (valid_key key && valid_value value = false -> w1 = w) /\
    (forall k, k <> key -> environ w1 !! k = environ w !! k).
Proof.
  eexists _, _. split; [apply testSetENV_run|].
  split_and!.
  - apply os_Setenv_test.
  - intros Vk Vv. rewrite os_Setenv_environ, Vk, Vv. cbn [andb].
    apply lookupEnv_set. split; [now apply valid_key_nonempty | apply lookup_insert_eq].
  - intros V. unfold os_Setenv. now rewrite V.
  - intros k Hk. now apply os_Setenv_other.
Qed.

(** X9: the closure restores the variable whatever happened in between.
    From a well-formed environment and for a name [os.Setenv] accepts, the
    closure returned by [testSetENV], run in any later state (the one the
    test body left), returns, leaves the test as it is, sets the variable to
    the value read when [testSetENV] was called (the empty string if it was
    unset) and touches no other variable. *)
Theorem testSetENV_closure_restores (key value : string) (w : World) :
  env_wf (environ w) -> valid_key key = true ->
  exists reset w1, testSetENV key value w = (Return reset, w1) /\
    forall wm : World, exists w2, reset wm = (Return tt, w2) /\
      test w2 = test wm /\
      lookupEnv (environ w2) key = (fst (lookupEnv (environ w) key), true) /\
      (forall k, k <> key -> environ w2 !! k = environ wm !! k).
Proof.
  intros Hwf Vk. eexists _, _. split; [apply testSetENV_run|].
  intros wm. eexists. split; [apply reset_run|].
  split_and!.
  - apply os_Setenv_test.
  - rewrite os_Setenv_environ, Vk, (lookupEnv_valid_value _ key Hwf). cbn [andb].
    apply lookupEnv_set. split; [now apply valid_key_nonempty | apply lookup_insert_eq].
  - intros k Hk. now apply os_Setenv_other.
Qed.

Lemma testSetENV_closure_restores_witness :
  env_wf {["foo" := "baz"]} /\ valid_key "foo" = true /\
  exists reset w1, testSetENV "foo" "bar" (fresh {["foo" := "baz"]}) = (Return reset, w1) /\
    lookupEnv (environ (snd (reset (fresh {["foo" := "other"; "x" := "y"]})))) "foo"
    = ("baz", true).
Proof.
  assert (Hwf : env_wf {["foo" := "baz"]}).
  { intros k v H. apply lookup_singleton_Some in H as [<- <-]. split; reflexivity. }
  split; [exact Hwf|]. split; [reflexivity|].
  destruct (testSetENV_closure_restores "foo" "bar" (fresh {["foo" := "baz"]}) Hwf eq_refl)
    as (reset & w1 & E & H).
  exists reset, w1. split; [exact E|].
  destruct (H (fresh {["foo" := "other"; "x" := "y"]})) as (w2 & E2 & _ & L & _).
  rewrite E2. exact L.
Defined.

(** The environment after the helper and its closure, in full. *)
Lemma set_then_reset_environ (key value : string) (w : World) :
  env_wf (environ w) ->
  environ (snd (set_then_reset key value w)) =
  if valid_key key then <[key := fst (lookupEnv (environ w) key)]> (environ w)
  else environ w.
Proof.
  intros Hwf. rewrite set_then_reset_run. cbn [snd].
  rewrite !os_Setenv_environ, (lookupEnv_valid_value _ key Hwf).
  destruct (valid_key key); cbn [andb]; [|reflexivity].
  destruct (valid_value value); [apply insert_insert_eq | reflexivity].
Qed.

Lemma set_then_reset_test (key value : string) (w : World) :
  test (snd (set_then_reset key value w)) = test w.
Proof. rewrite set_then_reset_run. cbn [snd]. now rewrite !os_Setenv_test. Qed.

(** X10: the helper followed by its closure touches no variable but its
    own: with that one deleted, the environment is what it was. *)
Theorem set_then_reset_frame (key value : string) (w : World) :
  delete key (environ (snd (set_then_reset key value w))) = delete key (environ w) /\
  test (snd (set_then_reset key value w)) = test w.
Proof.
  split; [|apply set_then_reset_test].
  apply map_eq. intros k. destruct (decide (key = k)) as [<-|Hk].
  - now rewrite !lookup_delete_eq.
  - rewrite !lookup_delete_ne by exact Hk.
    rewrite set_then_reset_run. cbn [snd].
    rewrite !os_Setenv_other by congruence. reflexivity.
Qed.

(** X11: neither the helper nor its closure ever unsets a variable: every
    variable set before is still set after the helper, and after the helper
    and its closure. *)
Theorem testSetENV_never_unsets (key value : string) (w : World) :
  dom (environ w) ⊆ dom (environ (snd (testSetENV key value w))) /\
  dom (environ w) ⊆ dom (environ (snd (set_then_reset key value w))).
Proof.
  rewrite testSetENV_run, set_then_reset_run. cbn [snd]. split.
  - apply os_Setenv_dom.
  - etrans; [apply (os_Setenv_dom key value w) | apply os_Setenv_dom].
Qed.

Lemma set_then_reset_wf (key value : string) (w : World) :
  env_wf (environ w) -> env_wf (environ (snd (set_then_reset key value w))).
Proof.
  intros Hwf. rewrite set_then_reset_run. cbn [snd]. now do 2 apply os_Setenv_wf.
Qed.

(** X12: well-formedness is an invariant: the helper, and the helper with
    its closure, leave a well-formed environment well formed. *)
Theorem testSetENV_keeps_env_wf (key value : string) (w : World) :
  env_wf (environ w) ->
  env_wf (environ (snd (testSetENV key value w))) /\
  env_wf (environ (snd (set_then_reset key value w))).
Proof.
  intros Hwf. split; [|now apply set_then_reset_wf].
  rewrite testSetENV_run. cbn [snd]. now apply os_Setenv_wf.
Qed.

Lemma testSetENV_keeps_env_wf_witness :
  env_wf (environ (fresh ∅)) /\
  env_wf (environ (snd (set_then_reset "foo" "bar" (fresh ∅)))).
Proof.
  split; [apply env_wf_empty|].
  apply (testSetENV_keeps_env_wf "foo" "bar" (fresh ∅)). apply env_wf_empty.
Defined.

(** X13: the helper with its closure is idempotent: from a well-formed
    environment, a second round changes nothing that the first has not. *)
Theorem set_then_reset_idempotent (key value : string) (w : World) :
  env_wf (environ w) ->
  snd (set_then_reset key value (snd (set_then_reset key value w))) =
  snd (set_then_reset key value w).
Proof.
  intros Hwf.
  pose proof (set_then_reset_wf key value w Hwf) as Hwf1.
  set (w1 := snd (set_then_reset key value w)) in *.
  assert (He : environ (snd (set_then_reset key value w1)) = environ w1).
  { rewrite (set_then_reset_environ key value w1 Hwf1).
    destruct (valid_key key) eqn:Vk; [|reflexivity].
    apply insert_id. subst w1.
    rewrite (set_then_reset_environ key value w Hwf), Vk.
    assert (Hl : lookupEnv (<[key := fst (lookupEnv (environ w) key)]> (environ w)) key
                 = (fst (lookupEnv (environ w) key), true)).
    { apply lookupEnv_set. split; [now apply valid_key_nonempty | apply lookup_insert_eq]. }
    rewrite Hl. apply lookup_insert_eq. }
  pose proof (set_then_reset_test key value w1) as Ht.
  destruct (snd (set_then_reset key value w1)) as [e2 t2], w1 as [e1 t1].
  cbn in He, Ht. now subst.
Qed.

Lemma set_then_reset_idempotent_witness :
  env_wf (environ (fresh ∅)) /\
  snd (set_then_reset "foo" "bar" (snd (set_then_reset "foo" "bar" (fresh ∅)))) =
  snd (set_then_reset "foo" "bar" (fresh ∅)).
Proof.
  split; [apply env_wf_empty|].
  apply (set_then_reset_idempotent "foo" "bar" (fresh ∅)). apply env_wf_empty.
Defined.

(** X14: TestExampleHelperThree defers [testSetENV] and not the closure it
    returns, so nothing is ever reset: from every state the test returns
    without a failure of its own and leaves foo set to bar, whatever foo was
    before, with every other variable as it was. *)
Theorem TestExampleHelperThree_run (w : World) :
  TestExampleHelperThree w =
  (Return tt, {| environ := <["foo" := "bar"]> (environ w); test := test w |}) /\
  lookupEnv (environ (snd (TestExampleHelperThree w))) "foo" = ("bar", true).
Proof.
  assert (E : TestExampleHelperThree w =
    (Return tt, {| environ := <["foo" := "bar"]> (environ w); test := test w |})).
  { unfold TestExampleHelperThree. cbv [bind ret go_Add assert_Equal].
    change (go_eq 0 (Add 0 0)) with true. cbv beta iota.
    rewrite testSetENV_run. reflexivity. }
  split; [exact E|]. rewrite E. cbn [snd environ].
  apply lookupEnv_set. split; [discriminate | apply lookup_insert_eq].
Qed.

(** ** [Add] is exact whenever the real sum is a float64 *)

Lemma fexp64 (e : Z) : fexp prec emax e = Z.max (e - 53) (-1074).
Proof. reflexivity. Qed.

(** The value of a mantissa and exponent lies between two powers of two
    that its length fixes. *)
Lemma value_bounds (m : positive) (e : Z) :
  -1074 <= e ->
  2 ^ (Z.pos (digits2_pos m) + e + 1073) <= Z.pos m * 2 ^ (e + 1074)
  < 2 ^ (Z.pos (digits2_pos m) + e + 1074).
Proof.
  intros He. pose proof (digits2_pos_bounds m) as [L U].
  assert (P : 0 < 2 ^ (e + 1074)) by (apply Z.pow_pos_nonneg; lia).
  replace (Z.pos (digits2_pos m) + e + 1073)
    with ((Z.pos (digits2_pos m) - 1) + (e + 1074)) by lia.
  replace (Z.pos (digits2_pos m) + e + 1074)
    with (Z.pos (digits2_pos m) + (e + 1074)) by lia.
  rewrite (Z.pow_add_r 2 (Z.pos (digits2_pos m) - 1) (e + 1074)) by lia.
  rewrite (Z.pow_add_r 2 (Z.pos (digits2_pos m)) (e + 1074)) by lia.
  nia.
Qed.

(** Two writings of one value have the same magnitude. *)
Lemma magnitude_unique (m1 : positive) (e1 : Z) (m2 : positive) (e2 : Z) :
  -1074 <= e1 -> -1074 <= e2 ->
  Z.pos m1 * 2 ^ (e1 + 1074) = Z.pos m2 * 2 ^ (e2 + 1074) ->
  Z.pos (digits2_pos m1) + e1 = Z.pos (digits2_pos m2) + e2.
Proof.
  intros H1 H2 Hv.
  pose proof (value_bounds m1 e1 H1) as [L1 U1].
  pose proof (value_bounds m2 e2 H2) as [L2 U2].
  rewrite Hv in L1, U1.
  assert (A : 2 ^ (Z.pos (digits2_pos m1) + e1 + 1073)
              < 2 ^ (Z.pos (digits2_pos m2) + e2 + 1074)) by lia.
  assert (B : 2 ^ (Z.pos (digits2_pos m2) + e2 + 1073)
              < 2 ^ (Z.pos (digits2_pos m1) + e1 + 1074)) by lia.
  apply Z.pow_lt_mono_r_iff in A; [|lia|lia].
  apply Z.pow_lt_mono_r_iff in B; [|lia|lia].
  lia.
Qed.

Lemma shr_1_even (m : Z) :
  0 < m ->
  shr_1 {| shr_m := 2 * m; shr_r := false; shr_s := false |} =
  {| shr_m := m; shr_r := false; shr_s := false |}.
Proof. intros Hm. destruct m as [|q|q]; [lia | reflexivity | lia]. Qed.

(** Shifting out zero bits only is exact: nothing is remembered as lost. *)
Lemma iter_shr_1_exact (n : positive) : forall (j : Z) (q : positive),
  0 <= j ->
  SpecFloat.iter_pos shr_1 n
    {| shr_m := Z.pos q * 2 ^ (j + Z.pos n); shr_r := false; shr_s := false |} =
  {| shr_m := Z.pos q * 2 ^ j; shr_r := false; shr_s := false |}.
Proof.
  assert (Step : forall j q, 0 <= j ->
            shr_1 {| shr_m := Z.pos q * 2 ^ (j + 1); shr_r := false; shr_s := false |} =
            {| shr_m := Z.pos q * 2 ^ j; shr_r := false; shr_s := false |}).
  { intros j q Hj. rewrite Z.pow_add_r by lia. change (2 ^ 1) with 2.
    replace (Z.pos q * (2 ^ j * 2)) with (2 * (Z.pos q * 2 ^ j)) by lia.
    apply shr_1_even. assert (0 < 2 ^ j) by (apply Z.pow_pos_nonneg; lia). nia. }
  induction n as [n IH|n IH|]; intros j q Hj; cbn [SpecFloat.iter_pos].
  - replace (j + Z.pos n~1) with ((j + Z.pos n + Z.pos n) + 1) by lia.
    rewrite Step by lia. rewrite IH by lia. now apply IH.
  - replace (j + Z.pos n~0) with ((j + Z.pos n) + Z.pos n) by lia.
    rewrite IH by lia. now apply IH.
  - now apply Step.
Qed.

(** The canonical writing of a value passes through [shr_fexp] unrounded,
    from any writing with a smaller exponent. *)
Lemma shr_fexp_exact (mz : positive) (ez : Z) (m' : positive) (e' : Z) :
  e' = Z.max (Z.pos (digits2_pos m') + e' - 53) (-1074) ->
  -1074 <= ez -> ez <= e' ->
  Z.pos mz = Z.pos m' * 2 ^ (e' - ez) ->
  shr_fexp prec emax (Z.pos mz) ez loc_Exact =
  ({| shr_m := Z.pos m'; shr_r := false; shr_s := false |}, e').
Proof.
  intros Hc Hz Hle Hm. unfold shr_fexp. cbn [Zdigits2 shr_record_of_loc].
  assert (Hv : Z.pos mz * 2 ^ (ez + 1074) = Z.pos m' * 2 ^ (e' + 1074)).
  { rewrite Hm. replace (e' + 1074) with ((e' - ez) + (ez + 1074)) by lia.
    rewrite (Z.pow_add_r 2 (e' - ez)) by lia. ring. }
  rewrite fexp64, (magnitude_unique mz ez m' e') by (lia || exact Hv).
  rewrite <- Hc. unfold shr.
  destruct (e' - ez) as [|k|k] eqn:Ek; [| |lia].
  - rewrite Z.mul_1_r in Hm. injection Hm as ->. f_equal. lia.
  - pose proof (iter_shr_1_exact k 0 m' ltac:(lia)) as Hit.
    change (0 + Z.pos k) with (Z.pos k) in Hit. rewrite Z.mul_1_r in Hit.
    rewrite Hm, Hit. f_equal. lia.
Qed.

Lemma shl_align_snd (m : positive) (e e' : Z) : snd (shl_align m e e') = Z.min e e'.
Proof. unfold shl_align. destruct (e' - e) as [|d|d] eqn:E; cbn [snd]; lia. Qed.

(** Rounding a value that is a float64 returns that float64. *)
Lemma binary_round_exact (s : bool) (m : positive) (e : Z) (m' : positive) (e' : Z) :
  -1074 <= e ->
  valid_binary (S754_finite s m' e') = true ->
  Z.pos m * 2 ^ (e + 1074) = Z.pos m' * 2 ^ (e' + 1074) ->
  binary_round prec emax s m e = S754_finite s m' e'.
Proof.
  intros He Hval Hv. apply valid_finite_inv in Hval as [Hc Hmax].
  assert (He' : -1074 <= e') by lia.
  unfold binary_round. rewrite fexp64, (magnitude_unique m e m' e' He He' Hv), <- Hc.
  pose proof (shl_align_snd m e e') as Hs.
  pose proof (shl_align_fst m e (Z.min e e') ltac:(lia)) as Hf.
  assert (Hsame : shl_align m e (Z.min e e') = shl_align m e e').
  { unfold shl_align. destruct (Z.le_ge_cases e e') as [H|H].
    - rewrite Z.min_l by lia. rewrite Z.sub_diag.
      destruct (e' - e) as [|d|d] eqn:E; try reflexivity; lia.
    - now rewrite Z.min_r by lia. }
  rewrite Hsame in Hf. destruct (shl_align m e e') as [mz ez]. cbn [fst snd] in *.
  subst ez.
  assert (Hmz : Z.pos mz = Z.pos m' * 2 ^ (e' - Z.min e e')).
  { rewrite Hf. apply (Z.mul_reg_r _ _ (2 ^ (Z.min e e' + 1074))).
    - apply Z.pow_nonzero; lia.
    - rewrite <- !Z.mul_assoc, <- !Z.pow_add_r by lia.
      replace (e - Z.min e e' + (Z.min e e' + 1074)) with (e + 1074) by lia.
      replace (e' - Z.min e e' + (Z.min e e' + 1074)) with (e' + 1074) by lia.
      exact Hv. }
  unfold binary_round_aux.
  rewrite (shr_fexp_exact mz (Z.min e e') m' e' Hc ltac:(lia) ltac:(lia) Hmz).
  cbn [shr_m loc_of_shr_record round_nearest_even].
  rewrite (shr_fexp_exact m' e' m' e' Hc He' ltac:(lia))
    by (rewrite Z.sub_diag; cbn; lia).
  cbn [shr_m]. change (emax - prec) with 971.
  destruct (Z.leb_spec e' 971); [reflexivity | lia].
Qed.

(** When the real sum of two finite float64 is a float64 other than zero,
    [SFadd] returns it. *)
Lemma SFadd_exact (u v t : spec_float) (a b : Z) :
  valid_binary u = true -> valid_binary v = true -> valid_binary t = true ->
  SFscaled u = Some a -> SFscaled v = Some b -> SFscaled t = Some (a + b) ->
  a + b <> 0 -> SF64add u v = t.
Proof.
  intros Vu Vv Vt Hu Hv Ht Hn.
  destruct u as [su|su| |su mu eu]; cbn in Hu; try discriminate;
    destruct v as [sv|sv| |sv mv ev]; cbn in Hv; try discriminate.
  - injection Hu as <-. injection Hv as <-. lia.
  - injection Hu as <-. cbn [Z.add] in Ht, Hn.
    apply (SFscaled_inj _ _ (0 + b)); assumption.
  - injection Hv as <-. rewrite Z.add_0_r in Ht, Hn.
    apply (SFscaled_inj _ _ a); assumption.
  - pose proof Vu as Vu'. pose proof Vv as Vv'.
    apply valid_finite_inv in Vu' as [Cu _], Vv' as [Cv _].
    injection Hu as <-. injection Hv as <-.
    pose proof (aligned_sum_scaled su mu eu sv mv ev ltac:(lia) ltac:(lia)) as Hal.
    unfold SF64add. cbn [SFadd].
    destruct t as [st|st| |st mt et]; cbn in Ht; try discriminate;
      injection Ht as Ht; [lia|].
    assert (Pz : 0 < 2 ^ (Z.min eu ev + 1074)) by (apply Z.pow_pos_nonneg; lia).
    assert (Pt : 0 < 2 ^ (et + 1074)).
    { apply Z.pow_pos_nonneg; [lia|]. apply valid_finite_inv in Vt. lia. }
    rewrite <- Hal in Ht.
    destruct (cond_Zopp su (Z.pos (fst (shl_align mu eu (Z.min eu ev)))) +
              cond_Zopp sv (Z.pos (fst (shl_align mv ev (Z.min eu ev))))) as [|q|q];
      cbn [binary_normalize].
    + exfalso. destruct st; cbn in Ht; nia.
    + destruct st; cbn [cond_Zopp] in Ht; [exfalso; nia|].
      apply binary_round_exact; [lia | exact Vt | lia].
    + destruct st; cbn [cond_Zopp] in Ht; [|exfalso; nia].
      apply binary_round_exact; [lia | exact Vt | lia].
Qed.

(** Two finite non-zero float64 whose real sum is zero add up to [+0]. *)
Lemma SFadd_cancel (su : bool) (mu : positive) (eu : Z) (sv : bool) (mv : positive) (ev : Z) :
  valid_binary (S754_finite su mu eu) = true ->
  valid_binary (S754_finite sv mv ev) = true ->
  cond_Zopp su (Z.pos mu) * 2 ^ (eu + 1074) + cond_Zopp sv (Z.pos mv) * 2 ^ (ev + 1074) = 0 ->
  SF64add (S754_finite su mu eu) (S754_finite sv mv ev) = S754_zero false.
Proof.
  intros Vu Vv H0. apply valid_finite_inv in Vu as [Cu _], Vv as [Cv _].
  pose proof (aligned_sum_scaled su mu eu sv mv ev ltac:(lia) ltac:(lia)) as Hal.
  rewrite H0 in Hal. unfold SF64add. cbn [SFadd].
  assert (Pz : 0 < 2 ^ (Z.min eu ev + 1074)) by (apply Z.pow_pos_nonneg; lia).
  replace (cond_Zopp su (Z.pos (fst (shl_align mu eu (Z.min eu ev)))) +
           cond_Zopp sv (Z.pos (fst (shl_align mv ev (Z.min eu ev))))) with 0 by nia.
  reflexivity.
Qed.

(** Whatever the operands, a sum of real value zero is one of the zeros. *)
Lemma SFadd_zero_sum (u v : spec_float) (a b : Z) :
  valid_binary u = true -> valid_binary v = true ->
  SFscaled u = Some a -> SFscaled v = Some b -> a + b = 0 ->
  exists s, SF64add u v = S754_zero s.
Proof.
  intros Vu Vv Hu Hv H0.
  destruct u as [su|su| |su mu eu]; cbn in Hu; try discriminate;
    destruct v as [sv|sv| |sv mv ev]; cbn in Hv; try discriminate.
  - destruct su, sv; eauto.
  - exfalso. injection Hu as <-. injection Hv as Hv. apply valid_finite_inv in Vv.
    assert (0 < 2 ^ (ev + 1074)) by (apply Z.pow_pos_nonneg; lia).
    destruct sv; cbn in Hv; nia.
  - exfalso. injection Hv as <-. injection Hu as Hu. apply valid_finite_inv in Vu.
    assert (0 < 2 ^ (eu + 1074)) by (apply Z.pow_pos_nonneg; lia).
    destruct su; cbn in Hu; nia.
  - exists false. apply SFadd_cancel; try assumption.
    injection Hu as <-. injection Hv as <-. exact H0.
Qed.

Lemma Add_representable_sum (x y z : float) (a b : Z) :
  scaled x = Some a -> scaled y = Some b -> scaled z = Some (a + b) ->
  scaled (Add x y) = Some (a + b) /\ go_eq (Add x y) z = true /\
  (a + b <> 0 -> Add x y = z).
Proof.
  intros Hx Hy Hz.
  destruct (Z.eq_dec (a + b) 0) as [E0|Hn].
  - destruct (SFadd_zero_sum _ _ a b (Prim2SF_valid x) (Prim2SF_valid y) Hx Hy E0)
      as [s Hs].
    rewrite E0 in Hz. destruct (SFscaled_zero _ (Prim2SF_valid z) Hz) as [s' Hs'].
    split_and!.
    + unfold scaled. rewrite Add_spec, Hs, E0. reflexivity.
    + rewrite go_eq_SF, Add_spec, Hs, Hs'. reflexivity.
    + intros Hn. contradiction.
  - assert (E : Add x y = z).
    { apply Prim2SF_inj. rewrite Add_spec.
      apply (SFadd_exact _ _ _ a b); auto using Prim2SF_valid. }
    rewrite E. split_and!; [exact Hz | | reflexivity].
    rewrite go_eq_refl, is_nan_SF. unfold scaled in Hz.
    destruct (Prim2SF z); cbn in Hz; try discriminate; reflexivity.
Qed.

(** X15: [Add] is exact whenever it can be.  If some float64 [z] has for
    value the real sum of the finite float64 [x] and [y], then [Add x y] is
    that sum: it is [== z], its value is the sum of the values (the sum is
    exact in the sense of [exact_sum]), and it is [z] itself unless the sum
    is zero, where the two may differ in the sign of the zero. *)
Theorem Add_exact_when_representable (x y z : float) (a b : Z) :
  scaled x = Some a -> scaled y = Some b -> scaled z = Some (a + b) ->
  exact_sum x y = true /\ go_eq (Add x y) z = true /\
  (a + b <> 0 -> Add x y = z).
Proof.
  intros Hx Hy Hz.
  destruct (Add_representable_sum x y z a b Hx Hy Hz) as (Hs & Hg & He).
  split_and!; [|exact Hg|exact He].
  unfold exact_sum. rewrite Hx, Hy, Hs. apply Z.eqb_refl.
Qed.

Lemma Add_exact_when_representable_witness :
  scaled 0.5 = Some (2 ^ 1073) /\ scaled 0.25 = Some (2 ^ 1072) /\
  scaled 0.75 = Some (2 ^ 1073 + 2 ^ 1072) /\ Add 0.5 0.25 = 0.75%float.
Proof.
  do 3 (split; [vm_compute; reflexivity|]).
  apply (Add_exact_when_representable 0.5 0.25 0.75 (2 ^ 1073) (2 ^ 1072));
    vm_compute; (reflexivity || discriminate).
Defined.

(** ** [Add] on integers *)

(** A positive integer below [2^53] is a float64: its canonical writing. *)
Lemma small_integer_representable (s : bool) (q : positive) :
  Z.pos q < 2 ^ 53 ->
  exists m' e', valid_binary (S754_finite s m' e') = true /\
    Z.pos q * 2 ^ (0 + 1074) = Z.pos m' * 2 ^ (e' + 1074).
Proof.
  intros Hq. pose proof (digits2_pos_bounds q) as [L U].
  set (d := Z.pos (digits2_pos q)) in *.
  assert (Hd : d <= 53).
  { assert (H : 2 ^ (d - 1) < 2 ^ 53) by lia.
    apply Z.pow_lt_mono_r_iff in H; lia. }
  assert (Pk : 0 < 2 ^ (53 - d)) by (apply Z.pow_pos_nonneg; lia).
  exists (Z.to_pos (Z.pos q * 2 ^ (53 - d))), (d - 53).
  assert (Hm : Z.pos (Z.to_pos (Z.pos q * 2 ^ (53 - d))) = Z.pos q * 2 ^ (53 - d))
    by (apply Z2Pos.id; nia).
  split.
  - cbn [SpecFloat.valid_binary]. unfold bounded, canonical_mantissa.
    rewrite fexp64. change (emax - prec) with 971.
    pose proof (digits2_pos_bounds (Z.to_pos (Z.pos q * 2 ^ (53 - d)))) as [L' U'].
    rewrite Hm in L', U'.
    set (D := Z.pos (digits2_pos (Z.to_pos (Z.pos q * 2 ^ (53 - d))))) in *.
    assert (HD : D = 53).
    { assert (Hlo : 2 ^ 52 <= Z.pos q * 2 ^ (53 - d)).
      { replace 52 with ((d - 1) + (53 - d)) by lia.
        rewrite (Z.pow_add_r 2 (d - 1) (53 - d)) by lia. nia. }
      assert (Hhi : Z.pos q * 2 ^ (53 - d) < 2 ^ 53).
      { replace 53 with (d + (53 - d)) at 2 by lia.
        rewrite (Z.pow_add_r 2 d (53 - d)) by lia. nia. }
      assert (A : 2 ^ (D - 1) < 2 ^ 53) by lia.
      assert (B : 2 ^ 52 < 2 ^ D) by lia.
      apply Z.pow_lt_mono_r_iff in A; [|lia|lia].
      apply Z.pow_lt_mono_r_iff in B; [|lia|lia]. lia. }
    rewrite HD. apply andb_true_intro. split; [apply Z.eqb_eq | apply Z.leb_le]; lia.
  - rewrite Hm. replace (0 + 1074) with ((53 - d) + (d - 53 + 1074)) by lia.
    rewrite (Z.pow_add_r 2 (53 - d) (d - 53 + 1074)) by lia. ring.
Qed.

(** The conversion of an integer below [2^53] in magnitude is exact. *)
Lemma scaled_float64_of_Z (n : Z) :
  Z.abs n < 2 ^ 53 -> scaled (float64_of_Z n) = Some (n * 2 ^ 1074).
Proof.
  intros Hn. unfold scaled, float64_of_Z.
  destruct n as [|q|q]; cbn [binary_normalize].
  - reflexivity.
  - destruct (small_integer_representable false q ltac:(lia)) as (m' & e' & Hv & He).
    rewrite (binary_round_exact false q 0 m' e' ltac:(lia) Hv He).
    rewrite Prim2SF_SF2Prim by exact Hv. cbn [SFscaled cond_Zopp]. now rewrite <- He.
  - destruct (small_integer_representable true q ltac:(lia)) as (m' & e' & Hv & He).
    rewrite (binary_round_exact true q 0 m' e' ltac:(lia) Hv He).
    rewrite Prim2SF_SF2Prim by exact Hv. cbn [SFscaled cond_Zopp].
    f_equal. change (Z.neg q) with (- Z.pos q). rewrite Z.mul_opp_l, Z.mul_opp_l.
    f_equal. now rewrite <- He.
Qed.

(** A float64 whose value is not zero is a finite one. *)
Lemma SFscaled_nonzero_finite (u : spec_float) (a : Z) :
  SFscaled u = Some a -> a <> 0 ->
  exists s m e, u = S754_finite s m e.
Proof.
  destruct u as [s|s| |s m e]; cbn; try discriminate.
  - intros [= <-] H. contradiction.
  - eauto.
Qed.

(** X16: on integers [Add] is the integer sum.  For integers [a] and [b]
    below [2^53] in magnitude whose sum is too, adding their float64
    conversions gives the float64 conversion of [a + b], with no rounding. *)
Theorem Add_integers (a b : Z) :
  Z.abs a < 2 ^ 53 -> Z.abs b < 2 ^ 53 -> Z.abs (a + b) < 2 ^ 53 ->
  Add (float64_of_Z a) (float64_of_Z b) = float64_of_Z (a + b).
Proof.
  intros Ha Hb Hab.
  pose proof (scaled_float64_of_Z a Ha) as Sa.
  pose proof (scaled_float64_of_Z b Hb) as Sb.
  pose proof (scaled_float64_of_Z (a + b) Hab) as Sab.
  rewrite Z.mul_add_distr_r in Sab.
  destruct (Z.eq_dec (a + b) 0) as [E0|Hn].
  - rewrite E0. change (float64_of_Z 0) with 0%float.
    destruct (Z.eq_dec a 0) as [->|Hna].
    + assert (b = 0) as -> by lia. reflexivity.
    + assert (Hnb : b <> 0) by lia.
      unfold scaled in Sa, Sb.
      destruct (SFscaled_nonzero_finite _ _ Sa ltac:(lia)) as (su & mu & eu & Eu).
      destruct (SFscaled_nonzero_finite _ _ Sb ltac:(lia)) as (sv & mv & ev & Ev).
      apply Prim2SF_inj. rewrite Add_spec.
      pose proof (Prim2SF_valid (float64_of_Z a)) as Vu.
      pose proof (Prim2SF_valid (float64_of_Z b)) as Vv.
      rewrite Eu in *. rewrite Ev in *.
      change (Prim2SF 0) with (S754_zero false).
      apply SFadd_cancel; try assumption.
      cbn in Sa, Sb. injection Sa as ->. injection Sb as ->. lia.
  - apply (Add_representable_sum _ _ _ _ _ Sa Sb Sab).
    assert (0 < 2 ^ 1074) by (apply Z.pow_pos_nonneg; lia). nia.
Qed.

Lemma Add_integers_witness :
  Z.abs (-5) < 2 ^ 53 /\ Z.abs (-5 + -5) < 2 ^ 53 /\
  float64_of_Z (-5) = (-5)%float /\ float64_of_Z (-5 + -5) = (-10)%float /\
  Add (float64_of_Z (-5)) (float64_of_Z (-5)) = float64_of_Z (-5 + -5).
Proof.
  do 4 (split; [vm_compute; reflexivity|]).
  apply (Add_integers (-5) (-5)); vm_compute; reflexivity.
Defined.

(** ** The rounding error of [Add] *)

Lemma iter_pos_indexed {A : Type} (P : Z -> A -> Prop) (f : A -> A) :
  (forall j a, 0 <= j -> P j a -> P (j + 1) (f a)) ->
  forall n j a, 0 <= j -> P j a -> P (j + Z.pos n) (SpecFloat.iter_pos f n a).
Proof.
  intros Hf. induction n as [n IH|n IH|]; intros j a Hj Ha; cbn [SpecFloat.iter_pos].
  - replace (j + Z.pos n~1) with (j + 1 + Z.pos n + Z.pos n) by lia.
    apply IH; [lia|]. apply IH; [lia|]. now apply Hf.
  - replace (j + Z.pos n~0) with (j + Z.pos n + Z.pos n) by lia.
    apply IH; [lia|]. now apply IH.
  - now apply Hf.
Qed.

Lemma shr_inv_init (m : Z) :
  0 <= m -> shr_inv (2 * m) 0 {| shr_m := m; shr_r := false; shr_s := false |}.
Proof.
  intros Hm. split; [exact Hm|]. exists 0. cbn. split; [lia|]. split; [lia|].
  split; [discriminate | lia].
Qed.

(** One more bit shifted out. *)
Lemma shr_inv_step (m2 j : Z) (mrs : shr_record) :
  0 <= j -> shr_inv m2 j mrs -> shr_inv m2 (j + 1) (shr_1 mrs).
Proof.
  intros Hj [Hm (t & E & Ht & Hs)]. unfold shr_inv.
  assert (Pj : 0 < 2 ^ j) by (apply Z.pow_pos_nonneg; lia).
  replace (j + 1 + 1) with (Z.succ (Z.succ j)) by lia.
  replace (j + 1) with (Z.succ j) in * by lia.
  rewrite !Z.pow_succ_r in * by lia.
  destruct mrs as [M r s]. cbn [shr_m shr_r shr_s] in *.
  assert (Hs' : (r || s = true) <-> 0 < 2 ^ j * Z.b2z r + t).
  { destruct r; cbn [orb Z.b2z].
    - split; [lia | reflexivity].
    - rewrite Hs. lia. }
  destruct M as [|[q|q|]|q]; try lia; cbn [shr_1 shr_m shr_r shr_s]; (split; [lia|]);
    exists (2 ^ j * Z.b2z r + t); (split; [|split; [|exact Hs']]).
  all: try (destruct r; cbn [Z.b2z] in *; lia).
Qed.

Lemma shr_inv_iter (m : Z) (n : positive) :
  0 <= m ->
  shr_inv (2 * m) (Z.pos n)
    (SpecFloat.iter_pos shr_1 n {| shr_m := m; shr_r := false; shr_s := false |}).
Proof.
  intros Hm. change (Z.pos n) with (0 + Z.pos n).
  apply (iter_pos_indexed (shr_inv (2 * m))); [|lia|now apply shr_inv_init].
  intros j a Hj. now apply shr_inv_step.
Qed.

(** Rounding to nearest, ties to even: the mantissa moves by at most one and
    lands within half a unit of the value before the shift. *)
Lemma round_nearest_even_error (m2 j : Z) (mrs : shr_record) :
  0 <= j -> shr_inv m2 j mrs ->
  shr_m mrs <= round_nearest_even (shr_m mrs) (loc_of_shr_record mrs) <= shr_m mrs + 1 /\
  Z.abs (2 ^ (j + 1) * round_nearest_even (shr_m mrs) (loc_of_shr_record mrs) - m2)
    <= 2 ^ j.
Proof.
  intros Hj [Hm (t & E & Ht & Hs)].
  assert (Pj : 0 < 2 ^ j) by (apply Z.pow_pos_nonneg; lia).
  replace (j + 1) with (Z.succ j) in * by lia. rewrite Z.pow_succ_r in * by lia.
  destruct mrs as [M r s]. cbn [shr_m shr_r shr_s] in *.
  assert (Hs0 : s = false -> t = 0).
  { intros ->. destruct (Z.eq_dec t 0) as [|Hn]; [assumption|].
    assert (false = true) by (apply Hs; lia). discriminate. }
  assert (Hs1 : s = true -> 0 < t) by (intros ->; now apply Hs).
  destruct r, s; cbn [loc_of_shr_record round_nearest_even Z.b2z] in *.
  - specialize (Hs1 eq_refl). split; lia.
  - specialize (Hs0 eq_refl). destruct (Z.even M); split; lia.
  - specialize (Hs1 eq_refl). split; lia.
  - specialize (Hs0 eq_refl). split; lia.
Qed.

(** The length of a mantissa is fixed by the powers of two around it. *)
Lemma digits2_pos_unique (q : positive) (D : Z) :
  2 ^ (D - 1) <= Z.pos q < 2 ^ D -> Z.pos (digits2_pos q) = D.
Proof.
  intros [L U]. pose proof (digits2_pos_bounds q) as [L' U'].
  assert (HD : 0 < D).
  { destruct (Z_lt_le_dec 0 D) as [|H]; [assumption|].
    exfalso. destruct (Z.eq_dec D 0) as [->|Hn]; [cbn in U; lia|].
    rewrite Z.pow_neg_r in U by lia. lia. }
  assert (A : 2 ^ (D - 1) < 2 ^ Z.pos (digits2_pos q)) by lia.
  assert (B : 2 ^ (Z.pos (digits2_pos q) - 1) < 2 ^ D) by lia.
  apply Z.pow_lt_mono_r_iff in A; [|lia|lia].
  apply Z.pow_lt_mono_r_iff in B; [|lia|lia]. lia.
Qed.

(** Aligning keeps the value and does not go below the target exponent. *)
Lemma shl_align_value (m : positive) (e e' : Z) :
  -1074 <= e -> -1074 <= e' ->
  Z.pos (fst (shl_align m e e')) * 2 ^ (snd (shl_align m e e') + 1074)
  = Z.pos m * 2 ^ (e + 1074) /\
  -1074 <= snd (shl_align m e e').
Proof.
  intros He He'. rewrite shl_align_snd. split; [|lia].
  destruct (Z.le_ge_cases e e') as [H|H].
  - assert (Hs : shl_align m e e' = (m, e)).
    { unfold shl_align. destruct (e' - e) as [|d|d] eqn:E; try reflexivity; lia. }
    rewrite Hs. cbn [fst]. now rewrite Z.min_l by lia.
  - rewrite (shl_align_fst m e e' H), Z.min_r by lia.
    rewrite <- Z.mul_assoc, <- Z.pow_add_r by lia. f_equal. f_equal. lia.
Qed.

(** The error of one rounding.  Rounding the value [m * 2^e] either
    overflows or returns a float64 within [2^-53] of it, relatively. *)
Lemma binary_round_aux_error (s : bool) (m : positive) (e : Z) (c : Z) :
  -1074 <= e ->
  SFscaled (binary_round_aux prec emax s (Z.pos m) e loc_Exact) = Some c ->
  2 ^ 53 * Z.abs (c - cond_Zopp s (Z.pos m * 2 ^ (e + 1074)))
  <= Z.pos m * 2 ^ (e + 1074).
Proof.
  intros He. unfold binary_round_aux, shr_fexp.
  cbn [Zdigits2 shr_record_of_loc]. rewrite fexp64.
  pose proof (digits2_pos_bounds m) as [Lm Um].
  set (d := Z.pos (digits2_pos m)) in *.
  assert (Q : 0 < 2 ^ (e + 1074)) by (apply Z.pow_pos_nonneg; lia).
  unfold shr at 1.
  destruct (Z.max (d + e - 53) (-1074) - e) as [|k|k] eqn:Ek.
  1, 3: (* nothing to shift: the value is kept *)
    cbn [shr_m loc_of_shr_record round_nearest_even Zdigits2];
    fold d; rewrite fexp64, Ek; unfold shr; cbn [shr_m];
    change (emax - prec) with 971;
    destruct (e <=? 971); cbn [SFscaled]; [|discriminate];
    intros [= <-];
    replace (cond_Zopp s (Z.pos m) * 2 ^ (e + 1074) - cond_Zopp s (Z.pos m * 2 ^ (e + 1074)))
      with 0 by (destruct s; cbn [cond_Zopp]; lia);
    cbn; nia.
  - (* [k] bits are shifted out and the mantissa is rounded *)
    assert (Hk : Z.pos k = d - 53) by lia.
    pose proof (shr_inv_iter (Z.pos m) k ltac:(lia)) as Hinv.
    pose proof (round_nearest_even_error (2 * Z.pos m) (Z.pos k) _ ltac:(lia) Hinv) as [Hr Herr].
    destruct Hinv as [HM (t & E & Ht & _)].
    set (mrs := SpecFloat.iter_pos shr_1 k _) in *.
    set (M' := round_nearest_even (shr_m mrs) (loc_of_shr_record mrs)) in *.
    assert (Pk : 0 < 2 ^ Z.pos k) by (apply Z.pow_pos_nonneg; lia).
    replace (Z.pos k + 1) with (Z.succ (Z.pos k)) in * by lia.
    rewrite Z.pow_succ_r in * by lia.
    assert (Hd : 2 ^ (d - 1) = 2 ^ 52 * 2 ^ Z.pos k).
    { replace (d - 1) with (52 + Z.pos k) by lia. apply Z.pow_add_r; lia. }
    assert (Hd' : 2 ^ d = 2 ^ 53 * 2 ^ Z.pos k).
    { replace d with (53 + Z.pos k) at 1 by lia. apply Z.pow_add_r; lia. }
    assert (HMlo : 2 ^ 52 <= shr_m mrs).
    { assert (0 <= Z.b2z (shr_r mrs) <= 1) by (destruct (shr_r mrs); cbn; lia). nia. }
    assert (HMhi : shr_m mrs < 2 ^ 53).
    { assert (0 <= Z.b2z (shr_r mrs) <= 1) by (destruct (shr_r mrs); cbn; lia). nia. }
    (* the rounded value, in units of [2^-1074] *)
    assert (Hval : forall c', c' = cond_Zopp s (M' * 2 ^ (e + Z.pos k + 1074)) ->
              2 ^ 53 * Z.abs (c' - cond_Zopp s (Z.pos m * 2 ^ (e + 1074)))
              <= Z.pos m * 2 ^ (e + 1074)).
    { intros c' ->.
      replace (e + Z.pos k + 1074) with (Z.pos k + (e + 1074)) by lia.
      rewrite Z.pow_add_r by lia.
      replace (cond_Zopp s (M' * (2 ^ Z.pos k * 2 ^ (e + 1074)))
               - cond_Zopp s (Z.pos m * 2 ^ (e + 1074)))
        with (cond_Zopp s ((M' * 2 ^ Z.pos k - Z.pos m) * 2 ^ (e + 1074)))
        by (destruct s; cbn [cond_Zopp]; ring).
      assert (Ha : Z.abs (cond_Zopp s ((M' * 2 ^ Z.pos k - Z.pos m) * 2 ^ (e + 1074)))
                   = Z.abs (M' * 2 ^ Z.pos k - Z.pos m) * 2 ^ (e + 1074)).
      { destruct s; cbn [cond_Zopp]; rewrite ?Z.abs_opp, Z.abs_mul;
          f_equal; apply Z.abs_eq; lia. }
      rewrite Ha, Z.mul_assoc. apply Z.mul_le_mono_nonneg_r; [lia|].
      assert (Hhalf : 2 * Z.abs (M' * 2 ^ Z.pos k - Z.pos m) <= 2 ^ Z.pos k).
      { replace (2 * 2 ^ Z.pos k * M' - 2 * Z.pos m)
          with (2 * (M' * 2 ^ Z.pos k - Z.pos m)) in Herr by ring.
        rewrite Z.abs_mul in Herr. exact Herr. }
      change (2 ^ 53) with (2 * 2 ^ 52). lia. }
    cbn [shr_m]. fold mrs. fold M'.
    assert (HM' : 2 ^ 52 <= M' <= 2 ^ 53) by lia.
    destruct M' as [|q|q] eqn:EM; [lia| |lia].
    cbn [Zdigits2]. rewrite fexp64.
    destruct (Z.eq_dec (Z.pos q) (2 ^ 53)) as [E53|N53].
    + (* the rounding carried into a 54th bit: one more, exact, shift *)
      assert (q = 9007199254740992%positive) as -> by lia. clear E53.
      change (Z.pos (digits2_pos 9007199254740992)) with 54.
      replace (Z.max (54 + (e + Z.pos k) - 53) (-1074) - (e + Z.pos k)) with 1 by lia.
      cbn [shr SpecFloat.iter_pos shr_1 shr_m]. change (emax - prec) with 971.
      destruct (e + Z.pos k + 1 <=? 971); cbn [SFscaled]; [|discriminate].
      intros [= <-]. apply Hval.
      replace (e + Z.pos k + 1 + 1074) with (Z.succ (e + Z.pos k + 1074)) by lia.
      rewrite Z.pow_succ_r by lia. destruct s; cbn [cond_Zopp]; lia.
    + rewrite (digits2_pos_unique q 53) by (change (53 - 1) with 52; lia).
      replace (Z.max (53 + (e + Z.pos k) - 53) (-1074) - (e + Z.pos k)) with 0 by lia.
      cbn [shr shr_m]. change (emax - prec) with 971.
      destruct (e + Z.pos k <=? 971); cbn [SFscaled]; [|discriminate].
      intros [= <-]. apply Hval.
      destruct s; cbn [cond_Zopp]; lia.
Qed.

Lemma binary_round_error (s : bool) (m : positive) (e : Z) (c : Z) :
  -1074 <= e ->
  SFscaled (binary_round prec emax s m e) = Some c ->
  2 ^ 53 * Z.abs (c - cond_Zopp s (Z.pos m * 2 ^ (e + 1074)))
  <= Z.pos m * 2 ^ (e + 1074).
Proof.
  intros He. unfold binary_round. rewrite fexp64.
  destruct (shl_align_value m e (Z.max (Z.pos (digits2_pos m) + e - 53) (-1074))
              He ltac:(lia)) as [Hv Hz].
  destruct (shl_align m e _) as [mz ez]. cbn [fst snd] in Hv, Hz.
  rewrite <- Hv. now apply binary_round_aux_error.
Qed.

(** The sum of two finite float64, when it does not overflow, is within
    [2^-53] of their real sum, relatively. *)
Lemma SFadd_error (u v : spec_float) (a b c : Z) :
  valid_binary u = true -> valid_binary v = true ->
  SFscaled u = Some a -> SFscaled v = Some b -> SFscaled (SF64add u v) = Some c ->
  2 ^ 53 * Z.abs (c - (a + b)) <= Z.abs (a + b).
Proof.
  intros Vu Vv Hu Hv Hc.
  destruct u as [su|su| |su mu eu]; cbn in Hu; try discriminate;
    destruct v as [sv|sv| |sv mv ev]; cbn in Hv; try discriminate.
  - injection Hu as <-. injection Hv as <-.
    assert (c = 0) as -> by (destruct su, sv; cbn in Hc; congruence). cbn. lia.
  - injection Hu as <-. cbn [SF64add SFadd] in Hc.
    assert (c = b) as -> by (unfold SF64add in Hc; cbn in Hc; congruence).
    rewrite Z.add_0_l, Z.sub_diag. cbn. lia.
  - injection Hv as <-.
    assert (c = a) as -> by (unfold SF64add in Hc; cbn in Hc; congruence).
    rewrite Z.add_0_r, Z.sub_diag. cbn. lia.
  - apply valid_finite_inv in Vu as [Cu _], Vv as [Cv _].
    injection Hu as <-. injection Hv as <-.
    pose proof (aligned_sum_scaled su mu eu sv mv ev ltac:(lia) ltac:(lia)) as Hal.
    rewrite <- Hal. unfold SF64add in Hc. cbn [SFadd] in Hc.
    assert (Pz : 0 < 2 ^ (Z.min eu ev + 1074)) by (apply Z.pow_pos_nonneg; lia).
    destruct (cond_Zopp su (Z.pos (fst (shl_align mu eu (Z.min eu ev)))) +
              cond_Zopp sv (Z.pos (fst (shl_align mv ev (Z.min eu ev))))) as [|q|q];
      cbn [binary_normalize] in Hc.
    + injection Hc as <-. cbn. lia.
    + apply binary_round_error in Hc; [|lia]. cbn [cond_Zopp] in Hc.
      rewrite (Z.abs_eq (Z.pos q * _)) by lia. exact Hc.
    + apply binary_round_error in Hc; [|lia]. cbn [cond_Zopp] in Hc.
      change (Z.neg q) with (- Z.pos q). rewrite Z.mul_opp_l, Z.abs_opp.
      rewrite (Z.abs_eq (Z.pos q * _)) by lia. exact Hc.
Qed.

Lemma Add_rounding_error (x y : float) (a b c : Z) :
  scaled x = Some a -> scaled y = Some b -> scaled (Add x y) = Some c ->
  2 ^ 53 * Z.abs (c - (a + b)) <= Z.abs (a + b).
Proof.
  unfold scaled. rewrite Add_spec. intros Hx Hy Hc.
  apply (SFadd_error (Prim2SF x) (Prim2SF y)); auto using Prim2SF_valid.
Qed.

(** A finite sum has finite operands. *)
Lemma scaled_Add_inv (x y : float) (c : Z) :
  scaled (Add x y) = Some c -> exists a b, scaled x = Some a /\ scaled y = Some b.
Proof.
  unfold scaled. rewrite Add_spec. unfold SF64add.
  destruct (Prim2SF x) as [sx|[|]| |sx mx ex], (Prim2SF y) as [sy|[|]| |sy my ey];
    cbn [SFadd SFscaled]; try discriminate; eauto.
Qed.

(** C4, amended: [Add] is associative within floating-point tolerance as long
    as neither grouping overflows.  For every triple of finite float64 for
    which [Add(Add(x, y), z)] and [Add(x, Add(y, z))] are both finite, the two
    results differ by at most [2^-50] times [|x| + |y| + |z|] (all values
    counted in units of [2^-1074]).  The tolerance is relative to the
    operands: relative to the results it cannot be, as [2^53], [1], [-2^53]
    give [0] and [1]. *)
Theorem Add_assoc_within_tolerance (x y z : float) (a b c l r : Z) :
  scaled x = Some a -> scaled y = Some b -> scaled z = Some c ->
  scaled (Add (Add x y) z) = Some l -> scaled (Add x (Add y z)) = Some r ->
  2 ^ 50 * Z.abs (l - r) <= Z.abs a + Z.abs b + Z.abs c.
Proof.
  intros Hx Hy Hz Hl Hr.
  destruct (scaled_Add_inv _ _ _ Hl) as (s1 & c' & Hs1 & Hc').
  destruct (scaled_Add_inv _ _ _ Hr) as (a' & s2 & Ha' & Hs2).
  assert (c' = c) as -> by congruence. assert (a' = a) as -> by congruence.
  pose proof (Add_rounding_error x y a b s1 Hx Hy Hs1) as E1.
  pose proof (Add_rounding_error (Add x y) z s1 c l Hs1 Hz Hl) as E2.
  pose proof (Add_rounding_error y z b c s2 Hy Hz Hs2) as E3.
  pose proof (Add_rounding_error x (Add y z) a s2 r Hx Hs2 Hr) as E4.
  change (2 ^ 53) with 9007199254740992 in *.
  change (2 ^ 50) with 1125899906842624.
  lia.
Qed.

(** On [0.1], [0.2], [0.3] the two groupings differ, by one unit in the last
    place, and are within the tolerance. *)
Lemma Add_assoc_within_tolerance_witness :
  scaled 0x1.999999999999ap-4 = Some (7205759403792794 * 2 ^ 1018) /\
  scaled 0x1.999999999999ap-3 = Some (7205759403792794 * 2 ^ 1019) /\
  scaled 0x1.3333333333333p-2 = Some (5404319552844595 * 2 ^ 1020) /\
  scaled (Add (Add 0x1.999999999999ap-4 0x1.999999999999ap-3) 0x1.3333333333333p-2)
    = Some (5404319552844596 * 2 ^ 1021) /\
  scaled (Add 0x1.999999999999ap-4 (Add 0x1.999999999999ap-3 0x1.3333333333333p-2))
    = Some (5404319552844595 * 2 ^ 1021) /\
  2 ^ 50 * Z.abs (5404319552844596 * 2 ^ 1021 - 5404319552844595 * 2 ^ 1021)
  <= Z.abs (7205759403792794 * 2 ^ 1018) + Z.abs (7205759403792794 * 2 ^ 1019)
     + Z.abs (5404319552844595 * 2 ^ 1020).
Proof.
  do 5 (split; [vm_compute; reflexivity|]).
  apply (Add_assoc_within_tolerance
           0x1.999999999999ap-4 0x1.999999999999ap-3 0x1.3333333333333p-2);
    vm_compute; reflexivity.
Defined.
